(** * Difficulty scoring, outlier detection, correlation and weight search

    A shallow embedding of the analytics core of the mental-addition
    trainer: [useDifficultyCalculation], [useOutlierDetection],
    [useCorrelationStats], [useWeightOptimization] and the
    difficulty-predictor view that calls them.

    Numbers.  A TypeScript [number] that holds a count or a timestamp is
    an integer ([nat], [N], [Z]).  A [number] that is computed with
    [+ - * /] is a rational [Q]: every finite double is a rational and
    the four operations stay inside [Q], so the model is exact rather
    than rounded.  [Math.sqrt] is the only operation that leaves the
    rationals; its result, and everything computed from it (a
    correlation, a composite score), is a real [R]. *)

From Stdlib Require Import QArith Qround Qminmax Qabs Qreals Reals Psatz.
From Stdlib Require Import DecimalString Ascii String.
From Stdlib Require DecimalFacts DecimalPos DecimalN.
From stdpp Require Import gmap list sorting strings.

#[local] Open Scope Q_scope.

(** ** JavaScript primitives *)

Module JS.

(** [String(n)] for a non-negative integer: its decimal digits. *)
Definition String (n : N) : string :=
  NilZero.string_of_uint (N.to_uint n).

(** [s.split('')]: the characters of [s]. *)
Definition split (s : string) : list ascii := list_ascii_of_string s.

(** [(s.match(/0/g) || []).length] *)
Definition match_zeros (s : string) : nat :=
  length (filter (λ c, c = "0"%char) (split s)).

(** [parseInt(c)] on one character: the value of a decimal digit (the
    characters with codes 48 to 57); [None] stands for [NaN]. *)
Definition parseInt (c : ascii) : option nat :=
  let code := nat_of_ascii c in
  if (48 <=? code)%nat && (code <=? 57)%nat then Some (code - 48)%nat else None.

(** [Math.floor] and [Math.round] (round half up). *)
Definition Math_floor (q : Q) : Z := Qfloor q.
Definition Math_round (q : Q) : Z := Qfloor (q + (1 # 2)).

(** [Math.min(...l)] and [Math.max(...l)] on a non-empty argument list. *)
Definition Math_min (v : Q) (rest : list Q) : Q := foldl Qmin v rest.
Definition Math_max (v : Q) (rest : list Q) : Q := foldl Qmax v rest.

(** A length or a count used as a number. *)
Definition num (n : nat) : Q := inject_Z (Z.of_nat n).

(** [a < b] and [a > b] on numbers, as booleans. *)
Definition lt (a b : Q) : bool := negb (Qle_bool b a).
Definition gt (a b : Q) : bool := lt b a.

End JS.

(** ** Records of the database layer *)

Inductive ExerciseMode := trial | serious.

(** [ExerciseMode | 'all'] *)
Inductive ModeFilter := all | only (m : ExerciseMode).

Inductive EvaluationScope :=
| this_task | the_last_exercise | the_last_three_exercises
| the_last_five_exercises | the_last_10_exercises.

#[global] Instance ExerciseMode_eq_dec : EqDecision ExerciseMode.
Proof. solve_decision. Defined.

Module ExerciseRecord.
Record t := mk {
  id : option N;
  userId : N;
  operandA : N;
  operandB : N;
  answer : N;
  displayedAt : Z;
  solvedAt : option Z;
  mode : ExerciseMode;
  evaluationId : option N;
  keystrokeCount : option N
}.
End ExerciseRecord.

Module EvaluationRecord.
Record t := mk {
  id : option N;
  userId : N;
  scope : EvaluationScope;
  rating : Q;
  exerciseIds : list N;
  mode : ExerciseMode;
  createdAt : Z
}.
End EvaluationRecord.

Record DifficultyWeights := {
  digits : Q;
  carryovers : Q;
  zeros : Q
}.

Definition DEFAULT_DIFFICULTY_WEIGHTS : DifficultyWeights :=
  {| digits := 1.0; carryovers := 2.5; zeros := 0.5 |}.

Module DifficultyRange.
Record t := mk { min : Q; max : Q }.
End DifficultyRange.

(** [modeFilter !== 'all' && m !== modeFilter] *)
Definition mode_mismatch (modeFilter : ModeFilter) (m : ExerciseMode) : bool :=
  match modeFilter with
  | all => false
  | only f => negb (bool_decide (m = f))
  end.

(** ** useDifficultyCalculation *)

Definition countTotalDigits (operandA operandB : N) : nat :=
  (String.length (JS.String operandA) + String.length (JS.String operandB))%nat.

Definition countZeros (operandA operandB : N) : Z :=
  let strA := JS.String operandA in
  let strB := JS.String operandB in
  let zeroCount := (JS.match_zeros strA + JS.match_zeros strB)%nat in
  (- Z.of_nat zeroCount)%Z.

(** One turn of the loop of [countCarryovers] at position [i]; the state
    is [(carryovers, carry)].  [strA[i] || '0'] reads ['0'] past the end;
    a comparison with [NaN] is false. *)
Definition carry_step (strA strB : list ascii) (st : nat * nat) (i : nat)
  : nat * nat :=
  let '(count, carry) := st in
  let digitA := JS.parseInt (default "0"%char (strA !! i)) in
  let digitB := JS.parseInt (default "0"%char (strB !! i)) in
  match digitA, digitB with
  | Some a, Some b =>
      let sum := (a + b + carry)%nat in
      if (10 <=? sum)%nat then (S count, 1%nat) else (count, 0%nat)
  | _, _ => (count, 0%nat)
  end.

Definition countCarryovers (operandA operandB : N) : nat :=
  let strA := reverse (JS.split (JS.String operandA)) in
  let strB := reverse (JS.split (JS.String operandB)) in
  let maxLen := Nat.max (length strA) (length strB) in
  fst (foldl (carry_step strA strB) (0%nat, 0%nat) (seq 0 maxLen)).

Definition calculateDifficultyScore
  (ex : ExerciseRecord.t) (weights : DifficultyWeights) : Q :=
  let a := ExerciseRecord.operandA ex in
  let b := ExerciseRecord.operandB ex in
  digits weights * JS.num (countTotalDigits a b)
  + carryovers weights * JS.num (countCarryovers a b)
  + zeros weights * inject_Z (countZeros a b).

(** The [scores] array after the [forEach] of [calculateDifficultyRange]. *)
Definition range_scores (exercises : list ExerciseRecord.t)
  (weights : DifficultyWeights) (modeFilter : ModeFilter) : list Q :=
  foldl (λ scores ex,
           if mode_mismatch modeFilter (ExerciseRecord.mode ex) then scores
           else scores ++ [calculateDifficultyScore ex weights])
        [] exercises.

Definition calculateDifficultyRange (exercises : list ExerciseRecord.t)
  (weights : DifficultyWeights) (modeFilter : ModeFilter) : DifficultyRange.t :=
  match range_scores exercises weights modeFilter with
  | [] => DifficultyRange.mk 0 100
  | s :: rest =>
      let min := JS.Math_min s rest in
      let max := JS.Math_max s rest in
      if Qeq_bool min max then DifficultyRange.mk (min - 1) (min + 1)
      else DifficultyRange.mk min max
  end.

Definition normalizeDifficulty (rawScore : Q) (range : DifficultyRange.t) : Q :=
  ((rawScore - DifficultyRange.min range)
   / (DifficultyRange.max range - DifficultyRange.min range)) * 100.

(** ** useOutlierDetection *)

Module DataPoint.
(** [isOutlier] is an optional field: [None] is a point without it. *)
Record t := mk { x : Q; y : Q; isOutlier : option bool }.

(** [point.isOutlier = b] *)
Definition set_isOutlier (b : bool) (p : t) : t := mk (x p) (y p) (Some b).

(** [!p.isOutlier]: a missing flag is falsy. *)
Definition not_outlier (p : t) : bool := negb (default false (isOutlier p)).
End DataPoint.

#[global] Instance DataPoint_inhabited : Inhabited DataPoint.t :=
  populate (DataPoint.mk 0 0 None).

#[global] Instance Qle_decision : RelDecision Qle.
Proof.
  intros a b. destruct (Qlt_le_dec b a) as [H | H].
  - right. apply Qlt_not_le, H.
  - left. exact H.
Defined.

(** [[...values].sort((a, b) => a - b)] *)
Definition sort_ascending (values : list Q) : list Q := merge_sort Qle values.

(** The body of [values.forEach((val, idx) => ...)] in [detectOutliersIQR]. *)
Definition flag_step (lowerBound upperBound : Q)
  (outlierIndices : gset nat) (entry : nat * Q) : gset nat :=
  let '(idx, val) := entry in
  if JS.lt val lowerBound || JS.gt val upperBound
  then outlierIndices ∪ {[idx]}
  else outlierIndices.

(** The result is the set of flagged indices.  [sensitivity] has the
    default 1.5 in the source; every caller passes it. *)
Definition detectOutliersIQR (values : list Q) (sensitivity : Q) : gset nat :=
  if (length values <? 4)%nat then ∅
  else
    let sorted := sort_ascending values in
    let q1Index := Z.to_nat (JS.Math_floor (JS.num (length sorted) * 0.25)) in
    let q3Index := Z.to_nat (JS.Math_floor (JS.num (length sorted) * 0.75)) in
    match sorted !! q1Index, sorted !! q3Index with
    | Some q1, Some q3 =>
        let iqr := q3 - q1 in
        let lowerBound := q1 - sensitivity * iqr in
        let upperBound := q3 + sensitivity * iqr in
        foldl (flag_step lowerBound upperBound) ∅ (imap pair values)
    | _, _ => ∅
    end.

(** Point objects live in a store and an array holds references to them:
    [applyOutlierDetection] writes through the references it is given. *)
Abbreviation heap := (gmap nat DataPoint.t).

(** [point.isOutlier = flag idx], for the object [point] at index [idx]. *)
Definition write_step (flag : nat → bool) (h : heap) (entry : nat * nat) : heap :=
  let '(idx, point) := entry in
  alter (DataPoint.set_isOutlier (flag idx)) point h.

(** [result.forEach((point, idx) => point.isOutlier = flag idx)] *)
Definition write_flags (flag : nat → bool) (h : heap) (result : list nat) : heap :=
  foldl (write_step flag) h (imap pair result).

Definition applyOutlierDetection
  (h : heap) (points : list nat) (sensitivity : Q) (enabled : bool)
  : heap * list nat :=
  (* [[...points]] is a new array of the same references *)
  let result := points in
  if negb enabled || (length points <? 4)%nat then
    (write_flags (λ _, false) h result, result)
  else
    let xValues := (λ p, DataPoint.x (h !!! p)) <$> points in
    let yValues := (λ p, DataPoint.y (h !!! p)) <$> points in
    let xOutliers := detectOutliersIQR xValues sensitivity in
    let yOutliers := detectOutliersIQR yValues sensitivity in
    (write_flags (λ idx, bool_decide (idx ∈ xOutliers) || bool_decide (idx ∈ yOutliers))
                 h result,
     result).

(** The objects an array refers to. *)
Definition deref (h : heap) (arr : list nat) : list DataPoint.t :=
  (λ p, h !!! p) <$> arr.

(** An array built by pushing object literals: every element is a new
    object, here at the addresses [0, 1, ...]. *)
Definition new_array (points : list DataPoint.t) : heap * list nat :=
  (map_seq 0 points, seq 0 (length points)).

(** [applyOutlierDetection] called on an array of new objects, read back
    through the returned array; this is how every caller uses it. *)
Definition applyOutlierDetection_new
  (points : list DataPoint.t) (sensitivity : Q) (enabled : bool)
  : list DataPoint.t :=
  let '(h, arr) := new_array points in
  let '(h', result) := applyOutlierDetection h arr sensitivity enabled in
  deref h' result.

(** ** useCorrelationStats *)

(** [points.reduce((sum, p) => sum + f(p), 0)] *)
Definition reduce_sum (f : DataPoint.t → Q) (points : list DataPoint.t) : Q :=
  foldl (λ sum p, sum + f p) 0 points.

(** The product under the square root of [calculateCorrelation], which
    computes it inline. *)
Definition radicand (points : list DataPoint.t) : Q :=
  let n := JS.num (length points) in
  let sumX := reduce_sum DataPoint.x points in
  let sumY := reduce_sum DataPoint.y points in
  let sumX2 := reduce_sum (λ p, DataPoint.x p * DataPoint.x p) points in
  let sumY2 := reduce_sum (λ p, DataPoint.y p * DataPoint.y p) points in
  (n * sumX2 - sumX * sumX) * (n * sumY2 - sumY * sumY).

(** [None] is [null].  [Math.sqrt] of a negative number would be [NaN];
    the product under the root is never negative ([radicand_nonneg]
    below), so [sqrt] of the reals agrees with it. *)
Definition calculateCorrelation (points : list DataPoint.t) : option R :=
  if (length points <? 2)%nat then None
  else
    let n := JS.num (length points) in
    let sumX := reduce_sum DataPoint.x points in
    let sumY := reduce_sum DataPoint.y points in
    let sumXY := reduce_sum (λ p, DataPoint.x p * DataPoint.y p) points in
    let sumX2 := reduce_sum (λ p, DataPoint.x p * DataPoint.x p) points in
    let sumY2 := reduce_sum (λ p, DataPoint.y p * DataPoint.y p) points in
    let numerator := n * sumXY - sumX * sumY in
    let denominator :=
      sqrt (Q2R ((n * sumX2 - sumX * sumX) * (n * sumY2 - sumY * sumY))) in
    if Req_dec_T denominator 0 then None
    else Some (Q2R numerator / denominator)%R.

(** ** useWeightOptimization *)

Record Correlations := {
  cl : option R;
  time : option R;
  correctness : option R
}.

Definition calculateCompositeScore (correlations : Correlations) : R :=
  let sum := 0%R in
  let count := 0%nat in
  let '(sum, count) :=
    match cl correlations with
    | Some v => ((sum + v)%R, S count)
    | None => (sum, count)
    end in
  let '(sum, count) :=
    match time correlations with
    | Some v => ((sum + v)%R, S count)
    | None => (sum, count)
    end in
  let '(sum, count) :=
    match correctness correlations with
    | Some v => ((sum + Rabs v)%R, S count)
    | None => (sum, count)
    end in
  if (0 <? count)%nat then (sum / INR count)%R else 0%R.

(** [!ex.id]: a missing id and the id [0] are both falsy. *)
Definition no_id (id : option N) : bool :=
  match id with
  | None => true
  | Some n => (n =? 0)%N
  end.

(** The difficulty of an exercise on the 0-100 scale of [range]. *)
Definition difficulty_of (ex : ExerciseRecord.t) (weights : DifficultyWeights)
  (range : DifficultyRange.t) : Q :=
  let rawDifficulty := calculateDifficultyScore ex weights in
  normalizeDifficulty rawDifficulty range.

(** The [timePoints] array of [calculateCorrelationsForWeights]. *)
Definition timePoints (weights : DifficultyWeights)
  (exercises : list ExerciseRecord.t) (modeFilter : ModeFilter)
  (range : DifficultyRange.t) : list DataPoint.t :=
  foldl (λ timePoints ex,
    match ExerciseRecord.solvedAt ex with
    | None => timePoints
    | Some solvedAt =>
        if (solvedAt =? 0)%Z || no_id (ExerciseRecord.id ex) then timePoints
        else if mode_mismatch modeFilter (ExerciseRecord.mode ex) then timePoints
        else
          let duration :=
            inject_Z (solvedAt - ExerciseRecord.displayedAt ex) / 1000 in
          if JS.lt duration 0.5 || JS.gt duration 120 then timePoints
          else
            timePoints ++
              [DataPoint.mk (difficulty_of ex weights range) duration (Some false)]
    end) [] exercises.

(** The [ratingMap] of [calculateCorrelationsForWeights]: the ratings of
    the evaluations that name an exercise, in evaluation order. *)
Definition ratingMap (evaluations : list EvaluationRecord.t)
  (modeFilter : ModeFilter) : gmap N (list Q) :=
  foldl (λ ratingMap evaluation,
    let rating := EvaluationRecord.rating evaluation in
    if mode_mismatch modeFilter (EvaluationRecord.mode evaluation) then ratingMap
    else if JS.lt rating 1 || JS.gt rating 9 then ratingMap
    else
      foldl (λ (ratingMap : gmap N (list Q)) exerciseId,
               <[exerciseId := default [] (ratingMap !! exerciseId) ++ [rating]]>
                 ratingMap)
            ratingMap (EvaluationRecord.exerciseIds evaluation))
    (∅ : gmap N (list Q)) evaluations.

(** The [ratingPoints] array of [calculateCorrelationsForWeights]. *)
Definition ratingPoints (weights : DifficultyWeights)
  (exercises : list ExerciseRecord.t) (ratingMap : gmap N (list Q))
  (range : DifficultyRange.t) : list DataPoint.t :=
  foldl (λ ratingPoints ex,
    match ExerciseRecord.id ex with
    | None => ratingPoints
    | Some id =>
        if (id =? 0)%N then ratingPoints
        else
          match ratingMap !! id with
          | None | Some [] => ratingPoints
          | Some ratings =>
              let avgRating :=
                foldl (λ sum r, sum + r) 0 ratings / JS.num (length ratings) in
              ratingPoints ++
                [DataPoint.mk (difficulty_of ex weights range) avgRating (Some false)]
          end
    end) [] exercises.

(** The [correctnessPoints] array of [calculateCorrelationsForWeights];
    the view builds its [points] with the same loop. *)
Definition correctnessPoints (weights : DifficultyWeights)
  (exercises : list ExerciseRecord.t) (modeFilter : ModeFilter)
  (range : DifficultyRange.t) : list DataPoint.t :=
  foldl (λ correctnessPoints ex,
    match ExerciseRecord.keystrokeCount ex with
    | None => correctnessPoints
    | Some keystrokeCount =>
        if no_id (ExerciseRecord.id ex) then correctnessPoints
        else if mode_mismatch modeFilter (ExerciseRecord.mode ex)
        then correctnessPoints
        else
          let optimal := String.length (JS.String (ExerciseRecord.answer ex)) in
          let efficiency :=
            (inject_Z (Z.of_N keystrokeCount) / JS.num optimal) * 100 in
          if JS.lt efficiency 100 || JS.gt efficiency 500 then correctnessPoints
          else
            let isCorrect := if Qeq_bool efficiency 100 then 1 else 0 in
            correctnessPoints ++
              [DataPoint.mk (difficulty_of ex weights range) isCorrect (Some false)]
    end) [] exercises.

(** [points.filter(p => !p.isOutlier)] *)
Definition without_outliers (points : list DataPoint.t) : list DataPoint.t :=
  List.filter DataPoint.not_outlier points.

(** The flagged correctness points of [calculateCorrelationsForWeights]
    ([correctnessPointsWithOutliers]). *)
Definition correctnessPointsWithOutliers (weights : DifficultyWeights)
  (exercises : list ExerciseRecord.t) (modeFilter : ModeFilter)
  (detectOutliers : bool) (outlierSensitivity : Q) : list DataPoint.t :=
  let range := calculateDifficultyRange exercises weights modeFilter in
  applyOutlierDetection_new (correctnessPoints weights exercises modeFilter range)
    outlierSensitivity detectOutliers.

Definition calculateCorrelationsForWeights (weights : DifficultyWeights)
  (exercises : list ExerciseRecord.t) (evaluations : list EvaluationRecord.t)
  (modeFilter : ModeFilter) (detectOutliers : bool) (outlierSensitivity : Q)
  : Correlations :=
  let range := calculateDifficultyRange exercises weights modeFilter in
  let timePointsWithOutliers :=
    applyOutlierDetection_new (timePoints weights exercises modeFilter range)
      outlierSensitivity detectOutliers in
  let timeCorr := calculateCorrelation (without_outliers timePointsWithOutliers) in
  let ratingPointsWithOutliers :=
    applyOutlierDetection_new
      (ratingPoints weights exercises (ratingMap evaluations modeFilter) range)
      outlierSensitivity detectOutliers in
  let clCorr := calculateCorrelation (without_outliers ratingPointsWithOutliers) in
  let correctnessCorr :=
    calculateCorrelation
      (without_outliers
         (correctnessPointsWithOutliers weights exercises modeFilter
            detectOutliers outlierSensitivity)) in
  {| cl := clCorr; time := timeCorr; correctness := correctnessCorr |}.

(** A composite score, or the [-Infinity] the search starts from. *)
Inductive Score := NegInfinity | Finite (v : R).

(** [v > s] for a finite [v]. *)
Definition exceeds (v : R) (s : Score) : bool :=
  match s with
  | NegInfinity => true
  | Finite b => if Rgt_dec v b then true else false
  end.

Record OptimizationResult := {
  weights : DifficultyWeights;
  correlations : Correlations;
  compositeScore : Score
}.

Record OptimizationProgress := {
  current : nat;
  total : nat;
  percentage : Q
}.

(** [for (let v = min; v <= max; v += step) values.push(Math.round(v * 10) / 10)].
    The loop is bounded by [fuel]; [None] means the fuel ran out. *)
Fixpoint range_values (fuel : nat) (v max step : Q) : option (list Q) :=
  match fuel with
  | O => None
  | S fuel =>
      if Qle_bool v max
      then cons (inject_Z (JS.Math_round (v * 10)) / 10)
             <$> range_values fuel (v + step) max step
      else Some []
  end.

(** The state of the search loop: the incumbent, the number of
    combinations tried, and the calls made to [onProgress] so far. *)
Definition SearchState : Type :=
  OptimizationResult * nat * list OptimizationProgress.

(** The body of the innermost loop of [gridSearch].  [onProgress] tells
    whether the caller passed a callback. *)
Definition search_step (exercises : list ExerciseRecord.t)
  (evaluations : list EvaluationRecord.t) (modeFilter : ModeFilter)
  (detectOutliers : bool) (outlierSensitivity : Q) (onProgress : bool)
  (totalCombinations : nat) (st : SearchState) (w : DifficultyWeights)
  : SearchState :=
  let '(bestResult, currentCombination, calls) := st in
  let cs :=
    calculateCorrelationsForWeights w exercises evaluations modeFilter
      detectOutliers outlierSensitivity in
  let score := calculateCompositeScore cs in
  let bestResult :=
    if exceeds score (compositeScore bestResult)
    then {| weights := w; correlations := cs; compositeScore := Finite score |}
    else bestResult in
  let currentCombination := S currentCombination in
  let calls :=
    if onProgress && (currentCombination mod 100 =? 0)%nat
    then calls ++
           [{| current := currentCombination;
               total := totalCombinations;
               percentage :=
                 (JS.num currentCombination / JS.num totalCombinations) * 100 |}]
    else calls in
  (bestResult, currentCombination, calls).

(** The three nested [for ... of] loops over given value arrays. *)
Definition search_loops (exercises : list ExerciseRecord.t)
  (evaluations : list EvaluationRecord.t) (modeFilter : ModeFilter)
  (detectOutliers : bool) (outlierSensitivity : Q) (onProgress : bool)
  (digitsValues carryoversValues zerosValues : list Q) (st : SearchState)
  : SearchState :=
  let totalCombinations :=
    (length digitsValues * length carryoversValues * length zerosValues)%nat in
  foldl (λ st d,
    foldl (λ st c,
      foldl (λ st z,
               search_step exercises evaluations modeFilter detectOutliers
                 outlierSensitivity onProgress totalCombinations st
                 {| digits := d; carryovers := c; zeros := z |})
            st zerosValues)
      st carryoversValues)
    st digitsValues.

Definition initial_best : OptimizationResult :=
  {| weights := {| digits := 1.0; carryovers := 2.5; zeros := 0.5 |};
     correlations := {| cl := None; time := None; correctness := None |};
     compositeScore := NegInfinity |}.

(** [gridSearch] returns the best result and the calls made to
    [onProgress].  The [await] after a progress call hands control to the
    host and does not change the state; it is not modelled.  [fuel]
    bounds the three loops that build the value arrays. *)
Definition gridSearch_fuel (fuel : nat) (exercises : list ExerciseRecord.t)
  (evaluations : list EvaluationRecord.t) (modeFilter : ModeFilter)
  (detectOutliers : bool) (outlierSensitivity : Q) (onProgress : bool)
  : option (OptimizationResult * list OptimizationProgress) :=
  digitsValues ← range_values fuel 0 5 0.2;
  carryoversValues ← range_values fuel 0 10 0.4;
  zerosValues ← range_values fuel 0 5 0.2;
  let totalCombinations :=
    (length digitsValues * length carryoversValues * length zerosValues)%nat in
  let '(bestResult, _, calls) :=
    search_loops exercises evaluations modeFilter detectOutliers
      outlierSensitivity onProgress digitsValues carryoversValues zerosValues
      (initial_best, 0%nat, []) in
  let calls :=
    if onProgress
    then calls ++ [{| current := totalCombinations;
                      total := totalCombinations;
                      percentage := 100 |}]
    else calls in
  Some (bestResult, calls).

Definition gridSearch := gridSearch_fuel 64.

(** ** The difficulty-predictor view *)

(** The computed [difficultyVsCorrectness] of the view that offers the
    weight search: the correctness points, flagged on the x-axis only.
    The points are new objects of this computation, so the in-place
    writes are the returned flags. *)
Definition difficultyVsCorrectness (exercises : list ExerciseRecord.t)
  (modeFilter : ModeFilter) (difficultyWeights : DifficultyWeights)
  (outlierSensitivity : Q) : list DataPoint.t :=
  let difficultyRange :=
    calculateDifficultyRange exercises difficultyWeights modeFilter in
  let points :=
    correctnessPoints difficultyWeights exercises modeFilter difficultyRange in
  if (4 <=? length points)%nat then
    let xValues := DataPoint.x <$> points in
    let xOutliers := detectOutliersIQR xValues outlierSensitivity in
    imap (λ idx point,
            DataPoint.set_isOutlier (bool_decide (idx ∈ xOutliers)) point)
         points
  else points.

(** ** Reference definitions, in the words of the specification *)

(** The exercise population after the mode filter. *)
Definition filtered_population (exercises : list ExerciseRecord.t)
  (modeFilter : ModeFilter) : list ExerciseRecord.t :=
  List.filter (λ ex, negb (mode_mismatch modeFilter (ExerciseRecord.mode ex)))
    exercises.

(** The raw score of every exercise of the filtered population. *)
Definition raw_scores (exercises : list ExerciseRecord.t)
  (weights : DifficultyWeights) (modeFilter : ModeFilter) : list Q :=
  (λ ex, calculateDifficultyScore ex weights)
    <$> filtered_population exercises modeFilter.

(** [v] is a least (greatest) element of [l]. *)
Definition is_minimum (v : Q) (l : list Q) : Prop :=
  v ∈ l ∧ Forall (λ s, v <= s) l.
Definition is_maximum (v : Q) (l : list Q) : Prop :=
  v ∈ l ∧ Forall (λ s, s <= v) l.

(** The correlations that are not [null], with the magnitude of the
    correctness correlation. *)
Definition present (o : option R) : list R :=
  match o with
  | Some v => [v]
  | None => []
  end.
Definition available (c : Correlations) : list R :=
  present (cl c) ++ present (time c) ++ present (Rabs <$> correctness c).

(** The arithmetic mean of a non-empty list. *)
Definition mean (l : list R) : R :=
  (foldr Rplus 0 l / INR (length l))%R.

(** ** Auxiliary definitions of the proofs *)

(** What the returned array holds, as values: every point with the
    flag of its index. *)
Definition flagged (flag : nat → bool) (points : list DataPoint.t)
  : list DataPoint.t :=
  imap (λ idx point, DataPoint.set_isOutlier (flag idx) point) points.

Definition applyOutlierDetection_values
  (points : list DataPoint.t) (sensitivity : Q) (enabled : bool)
  : list DataPoint.t :=
  if negb enabled || (length points <? 4)%nat then flagged (λ _, false) points
  else
    let xOutliers := detectOutliersIQR (DataPoint.x <$> points) sensitivity in
    let yOutliers := detectOutliersIQR (DataPoint.y <$> points) sensitivity in
    flagged (λ idx, bool_decide (idx ∈ xOutliers) || bool_decide (idx ∈ yOutliers))
            points.

(** Sums over the reals, for the moments of a point set. *)
Fixpoint sumR {A} (f : A → R) (l : list A) : R :=
  match l with
  | [] => 0%R
  | a :: l => (f a + sumR f l)%R
  end.

(** The moments of a point set over the reals. *)
Definition Rx (p : DataPoint.t) : R := Q2R (DataPoint.x p).
Definition Ry (p : DataPoint.t) : R := Q2R (DataPoint.y p).
Definition varX (points : list DataPoint.t) : R :=
  (INR (length points) * sumR (λ p, Rx p * Rx p) points
   - sumR Rx points * sumR Rx points)%R.
Definition varY (points : list DataPoint.t) : R :=
  (INR (length points) * sumR (λ p, Ry p * Ry p) points
   - sumR Ry points * sumR Ry points)%R.
Definition covXY (points : list DataPoint.t) : R :=
  (INR (length points) * sumR (λ p, Rx p * Ry p) points
   - sumR Rx points * sumR Ry points)%R.

(** The correlations of a search without data. *)
Definition no_correlations : Correlations :=
  {| cl := None; time := None; correctness := None |}.

(** The incumbent of a search state holds the weights [w0] with
    composite score 0. *)
Definition settled (w0 : DifficultyWeights) (st : SearchState) : Prop :=
  weights st.1.1 = w0 ∧ compositeScore st.1.1 = Finite 0%R.

(** ** Sample data *)

(** A solved exercise [a + b] of mode [trial], answered with [keys]
    keystrokes one second after it was shown. *)
Definition solved (id a b keys : N) : ExerciseRecord.t :=
  ExerciseRecord.mk (Some id) 1 a b (a + b) 0 (Some 1000%Z) trial None
    (Some keys).

(** Four exercises typed without a wasted keystroke and one, the last,
    typed with twice the keystrokes its answer needs. *)
Definition five_exercises : list ExerciseRecord.t :=
  [solved 1 1 1 1; solved 2 12 1 2; solved 3 1 1 1; solved 4 12 1 2;
   solved 5 1 1 2].

(** ** More of useOutlierDetection *)

(** The value of the computed [useOutlierCount(points)]:
    [points.value.filter(p => p.isOutlier).length]. *)
Definition useOutlierCount (points : list DataPoint.t) : nat :=
  length (List.filter (λ p, default false (DataPoint.isOutlier p)) points).

(** The value of the computed [useFilteredPoints(points, excludeOutliers)]. *)
Definition useFilteredPoints (points : list DataPoint.t)
  (excludeOutliers : bool) : list DataPoint.t :=
  if excludeOutliers then List.filter DataPoint.not_outlier points else points.

(** ** Transformations of a point set *)

(** The point with its coordinates exchanged. *)
Definition swap_axes (p : DataPoint.t) : DataPoint.t :=
  DataPoint.mk (DataPoint.y p) (DataPoint.x p) (DataPoint.isOutlier p).


(** The point with [x] normalised to the scale of [range]. *)
Definition normalize_x (range : DifficultyRange.t) (p : DataPoint.t)
  : DataPoint.t :=
  DataPoint.mk (normalizeDifficulty (DataPoint.x p) range) (DataPoint.y p)
    (DataPoint.isOutlier p).

(** ** More of useCorrelationStats *)

(** [Math.pow(v, 2)] *)
Definition Math_pow_2 (v : Q) : Q := v * v.

(** [None] is [null]. *)
Definition calculateRSquared (points : list DataPoint.t) : option Q :=
  if (length points <? 2)%nat then None
  else
    let n := JS.num (length points) in
    let meanY := reduce_sum DataPoint.y points / n in
    let ssTot := reduce_sum (λ p, Math_pow_2 (DataPoint.y p - meanY)) points in
    if Qeq_bool ssTot 0 then None
    else
      let meanX := reduce_sum DataPoint.x points / n in
      let sumXY :=
        reduce_sum (λ p, (DataPoint.x p - meanX) * (DataPoint.y p - meanY))
          points in
      let sumX2 := reduce_sum (λ p, Math_pow_2 (DataPoint.x p - meanX)) points in
      if Qeq_bool sumX2 0 then None
      else
        let slope := sumXY / sumX2 in
        let intercept := meanY - slope * meanX in
        let ssRes :=
          reduce_sum (λ p,
                        let predicted := slope * DataPoint.x p + intercept in
                        Math_pow_2 (DataPoint.y p - predicted))
            points in
        Some (1 - ssRes / ssTot).

(** The labels of [getCorrelationStrength], in rising order. *)
Inductive Strength := Unknown | Weak | Moderate | Strong.

Definition getCorrelationStrength (correlation : option R) : Strength :=
  match correlation with
  | None => Unknown
  | Some correlation =>
      let abs := Rabs correlation in
      if Rlt_dec abs 0.3 then Weak
      else if Rlt_dec abs 0.7 then Moderate
      else Strong
  end.

(** The rank of a label. *)
Definition strength_rank (s : Strength) : nat :=
  match s with
  | Unknown => 0
  | Weak => 1
  | Moderate => 2
  | Strong => 3
  end.

(** Every list of a rating map is non-empty and holds ratings from 1 to 9. *)
Definition valid_ratings (m : gmap N (list Q)) : Prop :=
  ∀ id ratings, m !! id = Some ratings →
                ratings ≠ [] ∧ Forall (λ r, 1 <= r ∧ r <= 9) ratings.

(** ** The search of [gridSearch], unrolled *)



(** The composite score [gridSearch] gives to a weight triple. *)
Definition score_of (exercises : list ExerciseRecord.t)
  (evaluations : list EvaluationRecord.t) (modeFilter : ModeFilter)
  (detectOutliers : bool) (outlierSensitivity : Q) (w : DifficultyWeights) : R :=
  calculateCompositeScore
    (calculateCorrelationsForWeights w exercises evaluations modeFilter
       detectOutliers outlierSensitivity).

(** The result [gridSearch] records for a weight triple. *)
Definition result_of (exercises : list ExerciseRecord.t)
  (evaluations : list EvaluationRecord.t) (modeFilter : ModeFilter)
  (detectOutliers : bool) (outlierSensitivity : Q) (w : DifficultyWeights)
  : OptimizationResult :=
  {| weights := w;
     correlations :=
       calculateCorrelationsForWeights w exercises evaluations modeFilter
         detectOutliers outlierSensitivity;
     compositeScore :=
       Finite (score_of exercises evaluations modeFilter detectOutliers
                 outlierSensitivity w) |}.

(** The incumbent after the triples [ws], starting from [best]. *)
Definition best_after (exercises : list ExerciseRecord.t)
  (evaluations : list EvaluationRecord.t) (modeFilter : ModeFilter)
  (detectOutliers : bool) (outlierSensitivity : Q)
  (best : OptimizationResult) (ws : list DifficultyWeights)
  : OptimizationResult :=
  foldl (λ best w,
           if exceeds (score_of exercises evaluations modeFilter detectOutliers
                         outlierSensitivity w) (compositeScore best)
           then result_of exercises evaluations modeFilter detectOutliers
                  outlierSensitivity w
           else best)
        best ws.



(** ** Bucketed success rate of the view *)

(** A counter of the [buckets] map, [{ correct, total }]. *)
Module BucketCount.
Record t := mk { correct : nat; total : nat }.
End BucketCount.

Module BucketData.
Record t := mk {
  bucket : string;
  successRate : Q;
  totalCount : nat;
  correctCount : nat
}.
End BucketData.

(** The map after the first loop: keys 0 to 19, all counters zero. *)
Definition initial_buckets : gmap Z BucketCount.t :=
  foldl (λ buckets i, <[Z.of_nat i := BucketCount.mk 0 0]> buckets) ∅ (seq 0 20).

(** One call of the [forEach] callback.  The index is
    [Math.min(Math.floor(point.x / 5), 19)], the least of two integers.
    [buckets.get(bucketIndex)!] is not checked at run time: on a missing
    key [bucket.total++] throws, which is [None] here. *)
Definition fill_bucket (buckets : gmap Z BucketCount.t) (point : DataPoint.t)
  : option (gmap Z BucketCount.t) :=
  if DataPoint.not_outlier point then
    let bucketIndex := Z.min (JS.Math_floor (DataPoint.x point / 5)) 19 in
    bucket ← buckets !! bucketIndex;
    let total := S (BucketCount.total bucket) in
    let correct :=
      if Qeq_bool (DataPoint.y point) 1 then S (BucketCount.correct bucket)
      else BucketCount.correct bucket in
    Some (<[bucketIndex := BucketCount.mk correct total]> buckets)
  else Some buckets.

Definition fill_buckets (points : list DataPoint.t)
  : option (gmap Z BucketCount.t) :=
  foldl (λ buckets point, buckets ≫= λ b, fill_bucket b point)
    (Some initial_buckets) points.

(** The label [`${i * 5}-${(i + 1) * 5}`]. *)
Definition bucket_label (i : nat) : string :=
  JS.String (N.of_nat (i * 5)) +:+ "-" +:+ JS.String (N.of_nat ((i + 1) * 5)).

(** One turn of the second loop. *)
Definition push_bucket (buckets : gmap Z BucketCount.t)
  (result : option (list BucketData.t)) (i : nat)
  : option (list BucketData.t) :=
  result ← result;
  bucket ← buckets !! Z.of_nat i;
  if (0 <? BucketCount.total bucket)%nat then
    Some (result ++
          [BucketData.mk (bucket_label i)
             (JS.num (BucketCount.correct bucket)
                / JS.num (BucketCount.total bucket) * 100)
             (BucketCount.total bucket) (BucketCount.correct bucket)])
  else Some result.

Definition bucket_rows (buckets : gmap Z BucketCount.t)
  : option (list BucketData.t) :=
  foldl (push_bucket buckets) (Some []) (seq 0 20).

(** The computed [difficultyBuckets] over given points. *)
Definition bucketed (points : list DataPoint.t) : option (list BucketData.t) :=
  fill_buckets points ≫= bucket_rows.

Definition difficultyBuckets (exercises : list ExerciseRecord.t)
  (modeFilter : ModeFilter) (difficultyWeights : DifficultyWeights)
  (outlierSensitivity : Q) : option (list BucketData.t) :=
  bucketed (difficultyVsCorrectness exercises modeFilter difficultyWeights
              outlierSensitivity).

(** The points of the chart that count as correct. *)
Definition correct_points (points : list DataPoint.t) : list DataPoint.t :=
  List.filter (λ p, Qeq_bool (DataPoint.y p) 1) points.

(** The sum of one counter over the 20 buckets. *)
Definition counted (f : BucketCount.t → nat) (buckets : gmap Z BucketCount.t)
  : nat :=
  sum_list ((λ i, from_option f 0%nat (buckets !! Z.of_nat i)) <$> seq 0 20).

(** The map holds the 20 buckets, no bucket below 0, and no bucket with
    more correct answers than answers. *)
Definition well_formed (buckets : gmap Z BucketCount.t) : Prop :=
  (∀ i, (i < 20)%nat →
        ∃ b, buckets !! Z.of_nat i = Some b
             ∧ (BucketCount.correct b ≤ BucketCount.total b)%nat)
  ∧ (∀ k, (k < 0)%Z → buckets !! k = None).

(** What a row of the chart says of its bucket. *)
Definition row_ok (row : BucketData.t) : Prop :=
  (0 < BucketData.totalCount row)%nat
  ∧ (BucketData.correctCount row ≤ BucketData.totalCount row)%nat
  ∧ BucketData.successRate row
    == JS.num (BucketData.correctCount row)
       / JS.num (BucketData.totalCount row) * 100
  ∧ 0 <= BucketData.successRate row ∧ BucketData.successRate row <= 100.

(** A truth value as a count. *)
Definition one_if (b : bool) : nat := if b then 1%nat else 0%nat.

(** ** Progressive difficulty of the exercise generator *)

Module ProgressiveDifficultyParams.
Record t := mk { solvedCount : nat; maxDigits : option nat }.
End ProgressiveDifficultyParams.

(** One turn of the loop of [getProgressiveDifficulty]; the state is
    [(digitsA, digitsB)]. *)
Definition progressive_step (maxDigits : nat) (st : nat * nat) (i : nat)
  : nat * nat :=
  let '(digitsA, digitsB) := st in
  if (i mod 2 =? 0)%nat then
    if (digitsA <? maxDigits)%nat then (S digitsA, digitsB)
    else if (digitsB <? maxDigits)%nat then (digitsA, S digitsB)
    else (digitsA, digitsB)
  else
    if (digitsB <? maxDigits)%nat then (digitsA, S digitsB)
    else if (digitsA <? maxDigits)%nat then (S digitsA, digitsB)
    else (digitsA, digitsB).

(** The result is the pair [(digitsA, digitsB)]; [maxDigits] is 4 when
    left out, and [Math.floor(solvedCount / 3)] on a count is the
    integer quotient. *)
Definition getProgressiveDifficulty (params : ProgressiveDifficultyParams.t)
  : nat * nat :=
  let solvedCount := ProgressiveDifficultyParams.solvedCount params in
  let maxDigits := default 4%nat (ProgressiveDifficultyParams.maxDigits params) in
  let level := (solvedCount / 3)%nat in
  foldl (progressive_step maxDigits) (1%nat, 1%nat) (seq 0 level).

(** ** Persisted weights of the view *)

Definition roundWeight (value : Q) : Q :=
  inject_Z (JS.Math_round (value * 100)) / 100.

Definition toPersistableWeights (weights : DifficultyWeights)
  : DifficultyWeights :=
  {| digits := roundWeight (digits weights);
     carryovers := roundWeight (carryovers weights);
     zeros := roundWeight (zeros weights) |}.

(** * Properties *)

(** ** Difficulty features and normalisation *)

Section Difficulty.

Lemma foldl_ext_eq {A B} (f g : A → B → A) (a : A) (l : list B) :
  (∀ a x, f a x = g a x) → foldl f a l = foldl g a l.
Proof.
  intros Hfg. revert a. induction l as [| x l IH]; intros a; simpl; [done |].
  rewrite Hfg. apply IH.
Qed.

Lemma foldl_cons_eq {A B} (f : A → B → A) (a : A) (x : B) (l : list B) :
  foldl f a (x :: l) = foldl f (f a x) l.
Proof. reflexivity. Qed.

Lemma carry_step_comm strA strB st i :
  carry_step strA strB st i = carry_step strB strA st i.
Proof.
  unfold carry_step. destruct st as [count carry].
  destruct (JS.parseInt (default "0"%char (strA !! i))) as [a |],
           (JS.parseInt (default "0"%char (strB !! i))) as [b |]; try reflexivity.
  by rewrite (Nat.add_comm a b).
Qed.

(** C9.  For all non-negative integer operands [a] and [b],
    [countCarryovers a b = countCarryovers b a] and
    [countTotalDigits a b = countTotalDigits b a]. *)
Theorem carryovers_digits_commute (a b : N) :
  countCarryovers a b = countCarryovers b a
  ∧ countTotalDigits a b = countTotalDigits b a.
Proof.
  split.
  - unfold countCarryovers. rewrite Nat.max_comm. f_equal.
    apply foldl_ext_eq, carry_step_comm.
  - unfold countTotalDigits. apply Nat.add_comm.
Qed.

(** The two scenarios of the specification. *)
Example score_345_78 :
  countTotalDigits 345 78 = 5%nat ∧ countCarryovers 345 78 = 2%nat
  ∧ countZeros 345 78 = 0%Z
  ∧ calculateDifficultyScore (solved 1 345 78 3) DEFAULT_DIFFICULTY_WEIGHTS == 10.
Proof. by vm_compute. Qed.

Example score_1000_1 :
  countTotalDigits 1000 1 = 5%nat ∧ countCarryovers 1000 1 = 0%nat
  ∧ countZeros 1000 1 = (-3)%Z
  ∧ calculateDifficultyScore (solved 1 1000 1 4) DEFAULT_DIFFICULTY_WEIGHTS == 3.5.
Proof. by vm_compute. Qed.

(** C8.  For every range with [min] not equal to [max],
    [normalizeDifficulty min range] is 0 and
    [normalizeDifficulty max range] is 100. *)
Theorem normalizeDifficulty_endpoints (range : DifficultyRange.t) :
  ¬ DifficultyRange.min range == DifficultyRange.max range →
  normalizeDifficulty (DifficultyRange.min range) range == 0
  ∧ normalizeDifficulty (DifficultyRange.max range) range == 100.
Proof.
  intros Hne. unfold normalizeDifficulty.
  assert (Hd : ¬ DifficultyRange.max range - DifficultyRange.min range == 0).
  { intros H. apply Hne. lra. }
  split; field; exact Hd.
Qed.

Lemma normalizeDifficulty_endpoints_witness :
  normalizeDifficulty 0 (DifficultyRange.mk 0 100) == 0
  ∧ normalizeDifficulty 100 (DifficultyRange.mk 0 100) == 100.
Proof.
  apply (normalizeDifficulty_endpoints (DifficultyRange.mk 0 100)).
  simpl. lra.
Defined.

End Difficulty.

(** ** The difficulty range *)

Section Range.

Lemma range_scores_acc weights modeFilter exercises (acc : list Q) :
  foldl (λ scores ex,
           if mode_mismatch modeFilter (ExerciseRecord.mode ex) then scores
           else scores ++ [calculateDifficultyScore ex weights])
        acc exercises
  = acc ++ raw_scores exercises weights modeFilter.
Proof.
  unfold raw_scores, filtered_population.
  revert acc. induction exercises as [| ex exs IH]; intros acc; simpl.
  - by rewrite app_nil_r.
  - rewrite IH. destruct (mode_mismatch _ _); simpl; [done |].
    by rewrite <- app_assoc.
Qed.

Lemma range_scores_raw exercises weights modeFilter :
  range_scores exercises weights modeFilter
  = raw_scores exercises weights modeFilter.
Proof. unfold range_scores. by rewrite range_scores_acc. Qed.

Lemma Math_min_is_minimum s rest : is_minimum (JS.Math_min s rest) (s :: rest).
Proof.
  unfold JS.Math_min, is_minimum.
  assert (H : ∀ acc l, (foldl Qmin acc l = acc ∨ foldl Qmin acc l ∈ l)
                       ∧ foldl Qmin acc l <= acc
                       ∧ Forall (λ v, foldl Qmin acc l <= v) l).
  { intros acc l. revert acc. induction l as [| v l IH]; intros acc; simpl.
    - split; [by left |]. split; [apply Qle_refl | constructor].
    - destruct (IH (Qmin acc v)) as (Hin & Hle & Hall).
      assert (Hacc : Qmin acc v <= acc) by apply Q.le_min_l.
      assert (Hv : Qmin acc v <= v) by apply Q.le_min_r.
      split; [| split].
      + destruct Hin as [-> | Hin]; [| right; by right].
        unfold Qmin, GenericMinMax.gmin.
        destruct (acc ?= v); [by left | by left | right; by left].
      + by eapply Qle_trans.
      + constructor; [by eapply Qle_trans | done]. }
  destruct (H s rest) as (Hin & Hle & Hall). split.
  - destruct Hin as [-> | Hin]; [by left | by right].
  - by constructor.
Qed.

Lemma Math_max_is_maximum s rest : is_maximum (JS.Math_max s rest) (s :: rest).
Proof.
  unfold JS.Math_max, is_maximum.
  assert (H : ∀ acc l, (foldl Qmax acc l = acc ∨ foldl Qmax acc l ∈ l)
                       ∧ acc <= foldl Qmax acc l
                       ∧ Forall (λ v, v <= foldl Qmax acc l) l).
  { intros acc l. revert acc. induction l as [| v l IH]; intros acc; simpl.
    - split; [by left |]. split; [apply Qle_refl | constructor].
    - destruct (IH (Qmax acc v)) as (Hin & Hle & Hall).
      assert (Hacc : acc <= Qmax acc v) by apply Q.le_max_l.
      assert (Hv : v <= Qmax acc v) by apply Q.le_max_r.
      split; [| split].
      + destruct Hin as [-> | Hin]; [| right; by right].
        unfold Qmax, GenericMinMax.gmax.
        destruct (acc ?= v); [by left | right; by left | by left].
      + by eapply Qle_trans.
      + constructor; [by eapply Qle_trans | done]. }
  destruct (H s rest) as (Hin & Hle & Hall). split.
  - destruct Hin as [-> | Hin]; [by left | by right].
  - by constructor.
Qed.

(** C7.  [calculateDifficultyRange] returns the fallback range 0..100
    when the mode-filtered population is empty; when all filtered raw
    scores equal a common value [m] it returns the widened range
    [m - 1 .. m + 1]; otherwise it returns the minimum and the maximum
    raw score of the filtered population. *)
Theorem calculateDifficultyRange_cases exercises weights modeFilter :
  let scores := raw_scores exercises weights modeFilter in
  let range := calculateDifficultyRange exercises weights modeFilter in
  (filtered_population exercises modeFilter = [] →
   range = DifficultyRange.mk 0 100)
  ∧ (∀ m, scores ≠ [] → Forall (λ s, s == m) scores →
     DifficultyRange.min range == m - 1 ∧ DifficultyRange.max range == m + 1)
  ∧ (scores ≠ [] → (¬ ∃ m, Forall (λ s, s == m) scores) →
     is_minimum (DifficultyRange.min range) scores
     ∧ is_maximum (DifficultyRange.max range) scores).
Proof.
  intros scores range. subst range. unfold calculateDifficultyRange.
  rewrite range_scores_raw. fold scores.
  split; [| split].
  - intros Hempty. subst scores. unfold raw_scores. by rewrite Hempty.
  - intros m Hne Hall. destruct scores as [| s rest]; [done |].
    destruct (Math_min_is_minimum s rest) as [Hmin _].
    destruct (Math_max_is_maximum s rest) as [Hmax _].
    rewrite Forall_forall in Hall.
    pose proof (Hall _ Hmin) as Hmin'. pose proof (Hall _ Hmax) as Hmax'.
    rewrite (Qeq_eq_bool (JS.Math_min s rest) (JS.Math_max s rest))
      by (by rewrite Hmin', Hmax').
    simpl. split; by rewrite Hmin'.
  - intros Hne Hnall. destruct scores as [| s rest]; [done |].
    pose proof (Math_min_is_minimum s rest) as Hmin.
    pose proof (Math_max_is_maximum s rest) as Hmax.
    destruct (Qeq_bool (JS.Math_min s rest) (JS.Math_max s rest)) eqn:Heq;
      [| done].
    exfalso. apply Hnall. exists (JS.Math_min s rest).
    apply Qeq_bool_eq in Heq.
    destruct Hmin as [_ Hlo], Hmax as [_ Hhi].
    rewrite Forall_forall in Hlo, Hhi |- *. intros v Hv.
    apply Qle_antisym; [| by apply Hlo].
    rewrite Heq. by apply Hhi.
Qed.

Lemma calculateDifficultyRange_cases_witness :
  calculateDifficultyRange [] DEFAULT_DIFFICULTY_WEIGHTS all
  = DifficultyRange.mk 0 100
  ∧ (DifficultyRange.min
       (calculateDifficultyRange [solved 1 345 78 3] DEFAULT_DIFFICULTY_WEIGHTS all)
     == 10 - 1
     ∧ DifficultyRange.max
         (calculateDifficultyRange [solved 1 345 78 3] DEFAULT_DIFFICULTY_WEIGHTS all)
       == 10 + 1)
  ∧ (is_minimum
       (DifficultyRange.min
          (calculateDifficultyRange five_exercises DEFAULT_DIFFICULTY_WEIGHTS all))
       (raw_scores five_exercises DEFAULT_DIFFICULTY_WEIGHTS all)
     ∧ is_maximum
         (DifficultyRange.max
            (calculateDifficultyRange five_exercises DEFAULT_DIFFICULTY_WEIGHTS all))
         (raw_scores five_exercises DEFAULT_DIFFICULTY_WEIGHTS all)).
Proof.
  split; [| split].
  - by apply (calculateDifficultyRange_cases [] DEFAULT_DIFFICULTY_WEIGHTS all).
  - apply (calculateDifficultyRange_cases [solved 1 345 78 3]
             DEFAULT_DIFFICULTY_WEIGHTS all).
    + by vm_compute.
    + constructor; [by vm_compute | constructor].
  - apply (calculateDifficultyRange_cases five_exercises
             DEFAULT_DIFFICULTY_WEIGHTS all).
    + by vm_compute.
    + intros [m Hm].
      remember (raw_scores five_exercises DEFAULT_DIFFICULTY_WEIGHTS all)
        as scores eqn:Hscores.
      vm_compute in Hscores. subst scores.
      inversion Hm as [| ? ? H1 Hm1]; subst.
      inversion Hm1 as [| ? ? H2 Hm2]; subst.
      rewrite <- H2 in H1. by vm_compute in H1.
Defined.

End Range.

(** ** The composite score *)

Section Composite.

(** C5.  [calculateCompositeScore] is the arithmetic mean of the
    correlations that are not [null], with the absolute value of the
    correctness correlation and the signed values of the time and rating
    correlations; when all three are [null] it is 0. *)
Theorem calculateCompositeScore_mean (c : Correlations) :
  calculateCompositeScore c
  = match available c with
    | [] => 0%R
    | vs => mean vs
    end.
Proof.
  unfold calculateCompositeScore, available, mean.
  destruct c as [[a |] [b |] [d |]]; simpl; try reflexivity; try field.
Qed.

Example composite_all_null :
  calculateCompositeScore {| cl := None; time := None; correctness := None |} = 0%R.
Proof. reflexivity. Qed.

Example composite_negative_correctness :
  calculateCompositeScore
    {| cl := Some 1%R; time := None; correctness := Some (-1)%R |} = 1%R.
Proof.
  unfold calculateCompositeScore. simpl.
  rewrite Rabs_left by lra. lra.
Qed.
End Composite.

(** ** Outlier detection *)

Section Outliers.

#[local] Instance Qle_total : Total Qle.
Proof. intros a b. destruct (Qlt_le_dec a b); [left; by apply Qlt_le_weak | by right]. Qed.

#[local] Instance Qle_transitive : Transitive Qle.
Proof. intros a b c. apply Qle_trans. Qed.

Lemma JS_lt_spec a b : JS.lt a b = true ↔ a < b.
Proof.
  unfold JS.lt. rewrite negb_true_iff, <- not_true_iff_false, Qle_bool_iff.
  split; [apply Qnot_le_lt | apply Qlt_not_le].
Qed.

Lemma JS_gt_spec a b : JS.gt a b = true ↔ b < a.
Proof. apply JS_lt_spec. Qed.

Lemma quartile_index n (k : Z) :
  (0 <= k)%Z →
  Z.to_nat (((Z.of_nat n * (k * 25)) / 100)%Z) = (Z.to_nat k * n / 4)%nat.
Proof.
  intros Hk.
  replace (Z.of_nat n * (k * 25))%Z with ((k * Z.of_nat n) * 25)%Z by lia.
  change 100%Z with (4 * 25)%Z. rewrite Z.div_mul_cancel_r by lia.
  rewrite <- (Z2Nat.id k) at 1 by done.
  rewrite <- Nat2Z.inj_mul. change 4%Z with (Z.of_nat 4).
  rewrite <- Nat2Z.inj_div. apply Nat2Z.id.
Qed.

Lemma q1Index_div n :
  Z.to_nat (JS.Math_floor (JS.num n * 0.25)) = (n / 4)%nat.
Proof.
  unfold JS.Math_floor, JS.num.
  change (Qfloor (inject_Z (Z.of_nat n) * 0.25))
    with ((Z.of_nat n * (1 * 25)) / 100)%Z.
  rewrite quartile_index by lia. f_equal. simpl. lia.
Qed.

Lemma q3Index_div n :
  Z.to_nat (JS.Math_floor (JS.num n * 0.75)) = (3 * n / 4)%nat.
Proof.
  unfold JS.Math_floor, JS.num.
  change (Qfloor (inject_Z (Z.of_nat n) * 0.75))
    with ((Z.of_nat n * (3 * 25)) / 100)%Z.
  by rewrite quartile_index by lia.
Qed.

Lemma flag_step_fold lo hi (ps : list (nat * Q)) (acc : gset nat) (i : nat) :
  i ∈ foldl (flag_step lo hi) acc ps
  ↔ i ∈ acc ∨ ∃ v, (i, v) ∈ ps ∧ (v < lo ∨ hi < v).
Proof.
  revert acc. induction ps as [| [j w] ps IH]; intros acc; simpl.
  - split; [by left | intros [H | (v & H & _)]; [done | by inversion H]].
  - rewrite IH. unfold flag_step.
    destruct (JS.lt w lo || JS.gt w hi) eqn:Hflag.
    + apply orb_true_iff in Hflag.
      rewrite JS_lt_spec, JS_gt_spec in Hflag.
      rewrite elem_of_union, elem_of_singleton. split.
      * intros [[H | ->] | (v & H & Hv)].
        -- by left.
        -- right. exists w. split; [by left | done].
        -- right. exists v. split; [by right | done].
      * intros [H | (v & H & Hv)]; [by left; left |].
        apply elem_of_cons in H as [[= -> ->] | H]; [left; by right |].
        right. by exists v.
    + apply orb_false_iff in Hflag as [Hlt Hgt].
      split.
      * intros [H | (v & H & Hv)]; [by left |].
        right. exists v. split; [by right | done].
      * intros [H | (v & H & Hv)]; [by left |].
        apply elem_of_cons in H as [[= -> ->] | H].
        -- exfalso. destruct Hv as [Hv | Hv].
           ++ apply JS_lt_spec in Hv. congruence.
           ++ apply JS_gt_spec in Hv. congruence.
        -- right. by exists v.
Qed.

Lemma elem_of_imap_pair (values : list Q) i v :
  (i, v) ∈ imap pair values ↔ values !! i = Some v.
Proof.
  rewrite elem_of_lookup_imap. split.
  - by intros (j & w & [= -> ->] & H).
  - intros H. by exists i, v.
Qed.

Lemma sort_ascending_length values :
  length (sort_ascending values) = length values.
Proof. unfold sort_ascending. by rewrite merge_sort_Permutation. Qed.

(** Membership in the result, given the two order statistics. *)
Lemma detectOutliersIQR_elem (values : list Q) (s q1 q3 : Q) (i : nat) :
  (4 ≤ length values)%nat →
  sort_ascending values !! (length values / 4)%nat = Some q1 →
  sort_ascending values !! (3 * length values / 4)%nat = Some q3 →
  i ∈ detectOutliersIQR values s
  ↔ ∃ v, values !! i = Some v
         ∧ (v < q1 - s * (q3 - q1) ∨ q3 + s * (q3 - q1) < v).
Proof.
  intros Hge Hq1 Hq3. unfold detectOutliersIQR.
  apply Nat.ltb_ge in Hge. rewrite Hge.
  rewrite q1Index_div, q3Index_div, sort_ascending_length, Hq1, Hq3.
  rewrite flag_step_fold. split.
  - intros [H | (v & H & Hv)]; [by apply not_elem_of_empty in H |].
    exists v. by rewrite <- elem_of_imap_pair.
  - intros (v & H & Hv). right. exists v. by rewrite elem_of_imap_pair.
Qed.

Lemma quartiles_exist (values : list Q) :
  (4 ≤ length values)%nat →
  ∃ q1 q3,
    sort_ascending values !! (length values / 4)%nat = Some q1
    ∧ sort_ascending values !! (3 * length values / 4)%nat = Some q3.
Proof.
  intros Hge.
  destruct (lookup_lt_is_Some_2 (sort_ascending values)
              (length values / 4)%nat) as [q1 Hq1].
  { rewrite sort_ascending_length. apply Nat.Div0.div_lt_upper_bound. lia. }
  destruct (lookup_lt_is_Some_2 (sort_ascending values)
              (3 * length values / 4)%nat) as [q3 Hq3].
  { rewrite sort_ascending_length. apply Nat.Div0.div_lt_upper_bound. lia. }
  by exists q1, q3.
Qed.

(** C6.  On fewer than four values [detectOutliersIQR] returns the empty
    set.  On at least four values it returns exactly the indices of the
    values strictly below [q1 - s * (q3 - q1)] or strictly above
    [q3 + s * (q3 - q1)], where [q1] and [q3] are the elements at
    [floor (0.25 * n)] and [floor (0.75 * n)] of the values sorted
    ascending. *)
Theorem detectOutliersIQR_spec (values : list Q) (s : Q) :
  ((length values < 4)%nat → detectOutliersIQR values s = ∅)
  ∧ ((4 ≤ length values)%nat →
     ∃ sorted q1 q3,
       sorted ≡ₚ values ∧ StronglySorted Qle sorted
       ∧ sorted !! (length values / 4)%nat = Some q1
       ∧ sorted !! (3 * length values / 4)%nat = Some q3
       ∧ ∀ i, i ∈ detectOutliersIQR values s
              ↔ ∃ v, values !! i = Some v
                     ∧ (v < q1 - s * (q3 - q1) ∨ q3 + s * (q3 - q1) < v)).
Proof.
  split.
  - intros Hlt. unfold detectOutliersIQR.
    apply Nat.ltb_lt in Hlt. by rewrite Hlt.
  - intros Hge. destruct (quartiles_exist values Hge) as (q1 & q3 & Hq1 & Hq3).
    exists (sort_ascending values), q1, q3.
    split; [apply merge_sort_Permutation |].
    split; [unfold sort_ascending; apply StronglySorted_merge_sort; apply _ |].
    split; [done |]. split; [done |].
    intros i. by apply detectOutliersIQR_elem.
Qed.

(** C1, as the code has it.  [detectOutliersIQR [1; 2; 3; 4] s] is empty
    for every [s >= 1.5], and [detectOutliersIQR [1; 2; 3; 100] 1.5] is
    empty as well: with four values [q3] is [sorted[3]], the value 100
    itself, so the upper bound is [100 + 1.5 * 98] and 100 is not above
    it. *)
Theorem detectOutliersIQR_examples (s : Q) :
  1.5 <= s →
  detectOutliersIQR [1; 2; 3; 4] s = ∅
  ∧ detectOutliersIQR [1; 2; 3; 100] 1.5 = ∅.
Proof.
  intros Hs. split; [| by vm_compute].
  apply elem_of_equiv_empty_L. intros i.
  rewrite (detectOutliersIQR_elem [1; 2; 3; 4] s 2 4 i);
    [| simpl; lia | done | done].
  intros (v & Hv & Hout).
  destruct i as [| [| [| [| i]]]]; simpl in Hv; try done;
    injection Hv as <-; lra.
Qed.

Lemma detectOutliersIQR_examples_witness :
  detectOutliersIQR [1; 2; 3; 4] 2 = ∅
  ∧ detectOutliersIQR [1; 2; 3; 100] 1.5 = ∅.
Proof. apply (detectOutliersIQR_examples 2). vm_compute. discriminate. Defined.

(** C1 as the specification states it fails: index 3 is not flagged. *)
Lemma detectOutliersIQR_100_not_flagged :
  detectOutliersIQR [1; 2; 3; 100] 1.5 ≠ {[3%nat]}.
Proof. by vm_compute. Qed.

(** With a fifth value the quartiles move and 100 is flagged. *)
Example detectOutliersIQR_five :
  detectOutliersIQR [1; 2; 3; 4; 100] 1.5 = {[4%nat]}.
Proof. by vm_compute. Qed.

Lemma detectOutliersIQR_spec_witness :
  detectOutliersIQR [1; 2; 100] 1.5 = ∅
  ∧ ∃ sorted q1 q3,
      sorted ≡ₚ [1; 2; 3; 4; 100] ∧ StronglySorted Qle sorted
      ∧ sorted !! 1%nat = Some q1 ∧ sorted !! 3%nat = Some q3
      ∧ ∀ i, i ∈ detectOutliersIQR [1; 2; 3; 4; 100] 1.5
             ↔ ∃ v, [1; 2; 3; 4; 100] !! i = Some v
                    ∧ (v < q1 - 1.5 * (q3 - q1) ∨ q3 + 1.5 * (q3 - q1) < v).
Proof.
  split.
  - apply (proj1 (detectOutliersIQR_spec [1; 2; 100] 1.5)). simpl. lia.
  - apply (proj2 (detectOutliersIQR_spec [1; 2; 3; 4; 100] 1.5)). simpl. lia.
Defined.

End Outliers.

(** ** The store: what [applyOutlierDetection] writes *)

Section Store.

Implicit Types (h : heap) (flag : nat → bool).

Lemma imap_pair_snd {A} (l : list A) : (imap pair l).*2 = l.
Proof.
  apply list_eq. intros i. rewrite list_lookup_fmap, list_lookup_imap.
  by destruct (l !! i).
Qed.

Lemma write_fold_notin flag (ps : list (nat * nat)) h (l : nat) :
  l ∉ ps.*2 → foldl (write_step flag) h ps !! l = h !! l.
Proof.
  revert h. induction ps as [| [j l'] ps IH]; intros h Hl; simpl; [done |].
  rewrite fmap_cons, not_elem_of_cons in Hl. destruct Hl as [Hne Hl].
  rewrite IH by done. by apply lookup_alter_ne.
Qed.

Lemma write_fold_in flag (ps : list (nat * nat)) h (i l : nat) :
  NoDup ps.*2 → (i, l) ∈ ps →
  foldl (write_step flag) h ps !! l
  = DataPoint.set_isOutlier (flag i) <$> h !! l.
Proof.
  revert h. induction ps as [| [j l'] ps IH]; intros h Hnd Hin; simpl.
  - by inversion Hin.
  - rewrite fmap_cons in Hnd. apply NoDup_cons in Hnd as [Hfresh Hnd].
    apply elem_of_cons in Hin as [[= -> ->] | Hin].
    + rewrite write_fold_notin by done. apply lookup_alter_eq.
    + assert (l ≠ l').
      { intros ->. apply Hfresh. apply list_elem_of_fmap. by exists (i, l'). }
      rewrite IH by done. by rewrite lookup_alter_ne.
Qed.

Lemma write_fold_xy flag (ps : list (nat * nat)) h (l : nat) :
  (DataPoint.x <$> foldl (write_step flag) h ps !! l = DataPoint.x <$> h !! l)
  ∧ (DataPoint.y <$> foldl (write_step flag) h ps !! l = DataPoint.y <$> h !! l).
Proof.
  revert h. induction ps as [| [j l'] ps IH]; intros h; simpl; [done |].
  destruct (IH (alter (DataPoint.set_isOutlier (flag j)) l' h)) as [-> ->].
  rewrite lookup_alter. case_decide; [| done].
  subst. by destruct (h !! l).
Qed.

Lemma write_flags_notin flag h result (l : nat) :
  l ∉ result → write_flags flag h result !! l = h !! l.
Proof.
  intros Hl. unfold write_flags. apply write_fold_notin.
  by rewrite imap_pair_snd.
Qed.

Lemma write_flags_at flag h result (i l : nat) :
  NoDup result → result !! i = Some l →
  write_flags flag h result !! l
  = DataPoint.set_isOutlier (flag i) <$> h !! l.
Proof.
  intros Hnd Hi. unfold write_flags. apply write_fold_in.
  - by rewrite imap_pair_snd.
  - apply elem_of_lookup_imap. by exists i, l.
Qed.

Lemma deref_write_flags flag h (arr : list nat) :
  NoDup arr → (∀ l, l ∈ arr → is_Some (h !! l)) →
  deref (write_flags flag h arr) arr = flagged flag (deref h arr).
Proof.
  intros Hnd Hdom. apply list_eq. intros i.
  unfold deref, flagged. rewrite list_lookup_imap, !list_lookup_fmap.
  destruct (arr !! i) as [l |] eqn:Hi; simpl; [| done].
  destruct (Hdom l) as [p Hp]; [by eapply list_elem_of_lookup_2 |].
  f_equal. apply lookup_total_correct.
  rewrite (write_flags_at flag h arr i l) by done.
  by rewrite Hp, (lookup_total_correct _ _ _ Hp).
Qed.

(** The returned array is a new array of the same references. *)
Lemma applyOutlierDetection_result h points s enabled :
  (applyOutlierDetection h points s enabled).2 = points.
Proof. unfold applyOutlierDetection. by destruct (_ || _). Qed.

(** Objects outside the array are untouched. *)
Lemma applyOutlierDetection_frame h points s enabled (l : nat) :
  l ∉ points → (applyOutlierDetection h points s enabled).1 !! l = h !! l.
Proof.
  intros Hl. unfold applyOutlierDetection.
  destruct (_ || _); simpl; by apply write_flags_notin.
Qed.

(** The coordinates of every object are untouched. *)
Lemma applyOutlierDetection_xy h points s enabled (l : nat) :
  DataPoint.x <$> (applyOutlierDetection h points s enabled).1 !! l
  = DataPoint.x <$> h !! l
  ∧ DataPoint.y <$> (applyOutlierDetection h points s enabled).1 !! l
    = DataPoint.y <$> h !! l.
Proof.
  unfold applyOutlierDetection.
  destruct (_ || _); simpl; apply write_fold_xy.
Qed.

(** On an array of distinct live objects the call refines the value-level
    function: the returned array reads as the flagged points. *)
Lemma applyOutlierDetection_refines h points s enabled :
  NoDup points → (∀ l, l ∈ points → is_Some (h !! l)) →
  let '(h', result) := applyOutlierDetection h points s enabled in
  deref h' result = applyOutlierDetection_values (deref h points) s enabled.
Proof.
  intros Hnd Hdom. unfold applyOutlierDetection, applyOutlierDetection_values.
  assert (Hlen : length (deref h points) = length points)
    by apply length_fmap.
  rewrite Hlen.
  destruct (negb enabled || (length points <? 4)%nat).
  - by apply deref_write_flags.
  - rewrite deref_write_flags by done. unfold deref.
    by rewrite <- !list_fmap_compose.
Qed.

Lemma new_array_deref (points : list DataPoint.t) :
  deref (new_array points).1 (new_array points).2 = points.
Proof.
  unfold new_array, deref. simpl. apply list_eq. intros i.
  rewrite list_lookup_fmap.
  destruct (decide (i < length points)%nat) as [Hi | Hi].
  - rewrite lookup_seq_lt by done. simpl.
    destruct (lookup_lt_is_Some_2 points i Hi) as [p Hp]. rewrite Hp.
    f_equal. apply lookup_total_correct. by rewrite lookup_map_seq_0.
  - rewrite lookup_seq_ge by lia. simpl. symmetry.
    apply lookup_ge_None. lia.
Qed.

(** Every caller passes an array of new objects, so for them the call is
    the value-level function. *)
Lemma applyOutlierDetection_new_values points s enabled :
  applyOutlierDetection_new points s enabled
  = applyOutlierDetection_values points s enabled.
Proof.
  unfold applyOutlierDetection_new.
  pose proof (new_array_deref points) as Hd.
  destruct (new_array points) as [h arr] eqn:Hnew. simpl in Hd.
  assert (Harr : arr = seq 0 (length points)) by (by injection Hnew).
  assert (Hh : h = map_seq 0 points) by (by injection Hnew).
  pose proof (applyOutlierDetection_refines h arr s enabled) as Href.
  destruct (applyOutlierDetection h arr s enabled) as [h' result].
  rewrite Href, Hd; [done | |].
  - subst arr. apply NoDup_seq.
  - intros l Hl. subst arr h. apply elem_of_seq in Hl.
    rewrite lookup_map_seq_0. apply lookup_lt_is_Some. lia.
Qed.
End Store.

Section Mutation.

(** C3 evaluated.  Five new points, every flag [false]; the last lies
    outside the inter-quartile fence on the y-axis.  After the call the
    object the input array holds at index 4 carries the flag [true]: the
    returned array shares its objects with the input. *)
Theorem applyOutlierDetection_overwrites_input :
  let fresh a b := DataPoint.mk a b (Some false) in
  let points := [fresh 50 2; fresh 50 2; fresh 50 2; fresh 50 2; fresh 50 60] in
  let '(h, arr) := new_array points in
  let '(h', result) := applyOutlierDetection h arr 1.5 true in
  arr !! 4%nat = Some 4%nat
  ∧ h !! 4%nat = Some (DataPoint.mk 50 60 (Some false))
  ∧ h' !! 4%nat = Some (DataPoint.mk 50 60 (Some true))
  ∧ result = arr.
Proof. by vm_compute. Qed.

(** A disabled call clears a flag the input carried. *)
Example applyOutlierDetection_disabled_clears_input :
  let h : heap := {[ 0%nat := DataPoint.mk 1 2 (Some true) ]} in
  (applyOutlierDetection h [0%nat] 1.5 false).1 !! 0%nat
  = Some (DataPoint.mk 1 2 (Some false)).
Proof. by vm_compute. Qed.

End Mutation.

(** ** The correlation coefficient *)

Section Correlation.

#[local] Open Scope R_scope.

Lemma sumR_linear {A} (f g : A → R) (s t : R) (l : list A) :
  sumR (λ a, s * f a + t * g a) l = s * sumR f l + t * sumR g l.
Proof. induction l as [| a l IH]; simpl; [ring | rewrite IH; ring]. Qed.

Lemma sumR_square_linear {A} (f g : A → R) (s t : R) (l : list A) :
  sumR (λ a, (s * f a + t * g a) * (s * f a + t * g a)) l
  = s * s * sumR (λ a, f a * f a) l
    + 2 * s * t * sumR (λ a, f a * g a) l
    + t * t * sumR (λ a, g a * g a) l.
Proof. induction l as [| a l IH]; simpl; [ring | rewrite IH; ring]. Qed.

Lemma sumR_square_nonneg {A} (f : A → R) (l : list A) :
  0 <= sumR (λ a, f a * f a) l.
Proof. induction l as [| a l IH]; simpl; [lra | nra]. Qed.

(** [(Σ f)² ≤ n Σ f²] *)
Lemma sum_square_le {A} (f : A → R) (l : list A) :
  sumR f l * sumR f l <= INR (length l) * sumR (λ a, f a * f a) l.
Proof.
  induction l as [| a l IH]; [simpl; lra |].
  change (length (a :: l)) with (S (length l)). rewrite S_INR.
  simpl sumR.
  pose proof (sumR_square_nonneg f l) as Hq.
  pose proof (pos_INR (length l)) as Hk.
  set (sm := sumR f l) in *. set (sq := sumR (λ a, f a * f a) l) in *.
  set (k := INR (length l)) in *. set (z := f a).
  clearbody sm sq k z.
  assert (Hmid : 2 * z * sm <= k * (z * z) + sq).
  { destruct (Req_dec k 0) as [Hk0 | Hk0].
    - subst k. assert (Hs : sm = 0) by nra. rewrite Hs. lra.
    - assert (0 < k) by lra.
      assert (Hsq : 0 <= (k * z - sm) * (k * z - sm)) by apply Rle_0_sqr.
      assert (Hmul : k * (2 * z * sm) <= k * (k * (z * z) + sq))
        by (clear - Hsq IH; nra).
      by apply Rmult_le_reg_l in Hmul. }
  nra.
Qed.

Section Moments.
Context {A : Type} (f g : A → R) (l : list A).

Let n := INR (length l).
Let varF := n * sumR (λ a, f a * f a) l - sumR f l * sumR f l.
Let varG := n * sumR (λ a, g a * g a) l - sumR g l * sumR g l.
Let cov := n * sumR (λ a, f a * g a) l - sumR f l * sumR g l.

Lemma form_nonneg (s t : R) :
  0 <= s * s * varF + 2 * s * t * cov + t * t * varG.
Proof.
  pose proof (sum_square_le (λ a, s * f a + t * g a) l) as H.
  rewrite sumR_linear, sumR_square_linear in H.
  subst varF varG cov n. nra.
Qed.

Lemma varF_nonneg : 0 <= varF.
Proof. pose proof (form_nonneg 1 0). nra. Qed.

Lemma varG_nonneg : 0 <= varG.
Proof. pose proof (form_nonneg 0 1). nra. Qed.

(** Cauchy-Schwarz for the centred sums. *)
Lemma cov_square_le : cov * cov <= varF * varG.
Proof.
  pose proof varF_nonneg as HF. pose proof varG_nonneg as HG.
  destruct (Req_dec varG 0) as [H0 | H0].
  - rewrite H0. assert (Hcov : cov = 0); [| rewrite Hcov; lra].
    destruct (Req_dec cov 0) as [| Hc]; [done |].
    pose proof (form_nonneg 1 (- (varF + 1) / (2 * cov))) as Hform.
    rewrite H0 in Hform. exfalso.
    assert (Heq : 2 * 1 * (- (varF + 1) / (2 * cov)) * cov = - (varF + 1))
      by (field; done).
    rewrite Heq in Hform. lra.
  - assert (Hpos : 0 < varG) by lra.
    pose proof (form_nonneg varG (- cov)) as Hform.
    assert (Hfac : varG * (varF * varG - cov * cov)
                   = varG * varG * varF + 2 * varG * - cov * cov
                     + - cov * - cov * varG) by ring.
    rewrite <- Hfac in Hform.
    assert (0 <= varF * varG - cov * cov); [| lra].
    apply (Rmult_le_reg_l varG); [done |]. lra.
Qed.
End Moments.

Lemma Q2R_num (n : nat) : Q2R (JS.num n) = INR n.
Proof.
  unfold JS.num, Q2R. simpl. rewrite INR_IZR_INZ. field.
Qed.

Lemma Q2R_reduce_sum (f : DataPoint.t → Q) (points : list DataPoint.t) :
  Q2R (reduce_sum f points) = sumR (λ p, Q2R (f p)) points.
Proof.
  unfold reduce_sum.
  assert (H : ∀ a, Q2R (foldl (λ sum p, (sum + f p)%Q) a points)
                   = Q2R a + sumR (λ p, Q2R (f p)) points).
  { induction points as [| p ps IH]; intros a; simpl; [lra |].
    rewrite IH, Q2R_plus. lra. }
  rewrite H, RMicromega.Q2R_0. lra.
Qed.

Lemma Q2R_reduce_sum_mult (f g : DataPoint.t → Q) (points : list DataPoint.t) :
  Q2R (reduce_sum (λ p, (f p * g p)%Q) points)
  = sumR (λ p, Q2R (f p) * Q2R (g p)) points.
Proof.
  rewrite Q2R_reduce_sum. induction points as [| p ps IH]; simpl; [done |].
  by rewrite IH, Q2R_mult.
Qed.

Lemma Q2R_radicand points : Q2R (radicand points) = varX points * varY points.
Proof.
  unfold radicand, varX, varY.
  rewrite Q2R_mult, !Q2R_minus, !Q2R_mult, !Q2R_reduce_sum_mult,
    !Q2R_reduce_sum, Q2R_num.
  reflexivity.
Qed.

Lemma Q2R_numerator points :
  Q2R (JS.num (length points)
         * reduce_sum (λ p, DataPoint.x p * DataPoint.y p)%Q points
       - reduce_sum DataPoint.x points * reduce_sum DataPoint.y points)%Q
  = covXY points.
Proof.
  unfold covXY.
  rewrite Q2R_minus, !Q2R_mult, Q2R_reduce_sum_mult, !Q2R_reduce_sum, Q2R_num.
  reflexivity.
Qed.

Lemma calculateCorrelation_unfold points :
  calculateCorrelation points
  = if (length points <? 2)%nat then None
    else if Req_dec_T (sqrt (Q2R (radicand points))) 0 then None
         else Some
                (Q2R (JS.num (length points)
                        * reduce_sum (λ p, DataPoint.x p * DataPoint.y p)%Q points
                      - reduce_sum DataPoint.x points
                        * reduce_sum DataPoint.y points)%Q
                 / sqrt (Q2R (radicand points))).
Proof. reflexivity. Qed.

(** The square root is never taken of a negative number. *)
Lemma radicand_nonneg points : (0 <= radicand points)%Q.
Proof.
  apply Rle_Qle. rewrite RMicromega.Q2R_0, Q2R_radicand.
  apply Rmult_le_pos;
    [apply (varF_nonneg Rx Ry points) | apply (varG_nonneg Rx Ry points)].
Qed.

(** The test [denominator === 0] is a test on the rational radicand. *)
Lemma denominator_zero_iff points :
  sqrt (Q2R (radicand points)) = 0 ↔ (radicand points == 0)%Q.
Proof.
  pose proof (radicand_nonneg points) as Hnn. apply Qle_Rle in Hnn.
  rewrite RMicromega.Q2R_0 in Hnn. split.
  - intros H. apply sqrt_eq_0 in H; [| done].
    apply eqR_Qeq. by rewrite RMicromega.Q2R_0.
  - intros H. apply Qeq_eqR in H. rewrite H, RMicromega.Q2R_0. apply sqrt_0.
Qed.

Lemma calculateCorrelation_is_Some points :
  (2 ≤ length points)%nat → (0 < radicand points)%Q →
  is_Some (calculateCorrelation points).
Proof.
  intros Hlen Hpos. rewrite calculateCorrelation_unfold.
  apply Nat.ltb_ge in Hlen. rewrite Hlen.
  destruct (Req_dec_T _ 0) as [H0 | H0]; [| by eexists].
  apply denominator_zero_iff in H0. rewrite H0 in Hpos.
  by apply Qlt_irrefl in Hpos.
Qed.

Lemma calculateCorrelation_None points :
  (radicand points == 0)%Q → calculateCorrelation points = None.
Proof.
  intros H0. rewrite calculateCorrelation_unfold.
  destruct (length points <? 2)%nat; [done |].
  apply denominator_zero_iff in H0.
  by destruct (Req_dec_T _ 0).
Qed.

(** C10.  Whenever [calculateCorrelation] returns a number, the number
    lies in the closed interval from -1 to 1. *)
Theorem calculateCorrelation_bounded points (r : R) :
  calculateCorrelation points = Some r → -1 <= r <= 1.
Proof.
  rewrite calculateCorrelation_unfold.
  destruct (length points <? 2)%nat; [done |].
  destruct (Req_dec_T _ 0) as [H0 | H0]; [done |].
  intros [= <-]. rewrite Q2R_numerator.
  set (d := sqrt (Q2R (radicand points))) in *.
  assert (Hd : 0 < d).
  { pose proof (sqrt_pos (Q2R (radicand points))). fold d in H. lra. }
  assert (Habs : Rabs (covXY points) <= d).
  { rewrite <- sqrt_Rsqr_abs. subst d. apply sqrt_le_1_alt.
    rewrite Q2R_radicand. apply (cov_square_le Rx Ry points). }
  assert (Hcov : - d <= covXY points <= d).
  { unfold Rabs in Habs. destruct (Rcase_abs (covXY points)); lra. }
  split.
  - apply (Rmult_le_reg_r d); [done |].
    unfold Rdiv. rewrite Rmult_assoc, Rinv_l by lra. lra.
  - apply (Rmult_le_reg_r d); [done |].
    unfold Rdiv. rewrite Rmult_assoc, Rinv_l by lra. lra.
Qed.

Lemma calculateCorrelation_bounded_witness :
  ∃ r, calculateCorrelation
         [DataPoint.mk 0 0 (Some false); DataPoint.mk 100 1 (Some false);
          DataPoint.mk 50 1 (Some false)] = Some r
       ∧ -1 <= r <= 1.
Proof.
  destruct (calculateCorrelation_is_Some
              [DataPoint.mk 0 0 (Some false); DataPoint.mk 100 1 (Some false);
               DataPoint.mk 50 1 (Some false)]) as [r Hr].
  - simpl. lia.
  - by vm_compute.
  - exists r. split; [exact Hr |].
    exact (calculateCorrelation_bounded _ r Hr).
Defined.
End Correlation.

(** ** The two builders of correctness points *)

Section Callers.

(** The view flags on the x-axis only. *)
Lemma difficultyVsCorrectness_flags exercises modeFilter w s :
  let points :=
    correctnessPoints w exercises modeFilter
      (calculateDifficultyRange exercises w modeFilter) in
  (4 ≤ length points)%nat →
  difficultyVsCorrectness exercises modeFilter w s
  = flagged (λ idx,
               bool_decide (idx ∈ detectOutliersIQR (DataPoint.x <$> points) s))
            points.
Proof.
  intros points Hlen. unfold difficultyVsCorrectness. fold points.
  apply Nat.leb_le in Hlen. by rewrite Hlen.
Qed.

(** The optimizer flags on both axes. *)
Lemma correctnessPointsWithOutliers_flags exercises modeFilter w s :
  let points :=
    correctnessPoints w exercises modeFilter
      (calculateDifficultyRange exercises w modeFilter) in
  (4 ≤ length points)%nat →
  correctnessPointsWithOutliers w exercises modeFilter true s
  = flagged (λ idx,
               bool_decide (idx ∈ detectOutliersIQR (DataPoint.x <$> points) s)
               || bool_decide
                    (idx ∈ detectOutliersIQR (DataPoint.y <$> points) s))
            points.
Proof.
  intros points Hlen. unfold correctnessPointsWithOutliers. fold points.
  rewrite applyOutlierDetection_new_values.
  unfold applyOutlierDetection_values.
  apply Nat.ltb_ge in Hlen. by rewrite Hlen.
Qed.

(** C2 evaluated on [five_exercises] with the default weights and
    sensitivity 1.5.  The view flags no point.  The optimizer runs the
    fence on the 0/1 axis as well and flags the one point with outcome 0;
    without it the outcomes have no variance, so the optimizer reports no
    correctness correlation where the view reports one. *)
Theorem optimizer_tests_correctness_axis :
  let w := DEFAULT_DIFFICULTY_WEIGHTS in
  let optimizer := correctnessPointsWithOutliers w five_exercises all true 1.5 in
  let view := difficultyVsCorrectness five_exercises all w 1.5 in
  DataPoint.y <$> view = [1; 1; 1; 1; 0]
  ∧ DataPoint.isOutlier <$> view
    = [Some false; Some false; Some false; Some false; Some false]
  ∧ DataPoint.isOutlier <$> optimizer
    = [Some false; Some false; Some false; Some false; Some true]
  ∧ detectOutliersIQR (DataPoint.x <$> view) 1.5 = ∅
  ∧ detectOutliersIQR (DataPoint.y <$> view) 1.5 = {[4%nat]}
  ∧ correctness
      (calculateCorrelationsForWeights w five_exercises [] all true 1.5) = None
  ∧ is_Some (calculateCorrelation (without_outliers view)).
Proof.
  repeat split; try by vm_compute.
  - unfold calculateCorrelationsForWeights. cbn [correctness].
    apply calculateCorrelation_None. by vm_compute.
  - apply calculateCorrelation_is_Some; [vm_compute; lia | by vm_compute].
Qed.

End Callers.

(** ** The grid search without data *)

Section Search.

Context (evaluations : list EvaluationRecord.t) (modeFilter : ModeFilter)
  (detectOutliers : bool) (outlierSensitivity : Q) (onProgress : bool).

(** Without exercises no point is built and every correlation is [null]. *)
Lemma correlations_without_exercises (w : DifficultyWeights) :
  calculateCorrelationsForWeights w [] evaluations modeFilter detectOutliers
    outlierSensitivity = no_correlations.
Proof.
  unfold calculateCorrelationsForWeights, correctnessPointsWithOutliers.
  simpl. rewrite !applyOutlierDetection_new_values.
  unfold applyOutlierDetection_values. simpl.
  by rewrite orb_true_r.
Qed.

Lemma exceeds_zero_zero : exceeds 0 (Finite 0) = false.
Proof. simpl. destruct (Rgt_dec 0 0) as [H | H]; [lra | done]. Qed.

Let step (total : nat) :=
  search_step [] evaluations modeFilter detectOutliers outlierSensitivity
    onProgress total.

Lemma step_first total (st : SearchState) (w : DifficultyWeights) :
  compositeScore st.1.1 = NegInfinity → settled w (step total st w).
Proof.
  destruct st as [[best n] calls]. simpl. intros Hbest.
  unfold step, search_step. rewrite correlations_without_exercises, Hbest.
  simpl. by destruct (_ && _).
Qed.

Lemma step_settled total w0 (st : SearchState) (w : DifficultyWeights) :
  settled w0 st → settled w0 (step total st w).
Proof.
  destruct st as [[best n] calls]. intros [Hw Hscore]. simpl in *.
  unfold step, search_step. rewrite correlations_without_exercises, Hscore.
  change (calculateCompositeScore no_correlations) with 0%R.
  rewrite exceeds_zero_zero.
  by destruct (_ && _).
Qed.

Lemma zeros_loop_settled total w0 d c (zs : list Q) (st : SearchState) :
  settled w0 st →
  settled w0
    (foldl (λ st z, step total st {| digits := d; carryovers := c; zeros := z |})
           st zs).
Proof.
  revert st. induction zs as [| z zs IH]; intros st Hst; simpl; [done |].
  by apply IH, step_settled.
Qed.

Lemma carryovers_loop_settled total w0 d (cs zs : list Q) (st : SearchState) :
  settled w0 st →
  settled w0
    (foldl (λ st c,
              foldl (λ st z,
                       step total st {| digits := d; carryovers := c; zeros := z |})
                    st zs)
           st cs).
Proof.
  revert st. induction cs as [| c cs IH]; intros st Hst; simpl; [done |].
  by apply IH, zeros_loop_settled.
Qed.

Lemma digits_loop_settled total w0 (ds cs zs : list Q) (st : SearchState) :
  settled w0 st →
  settled w0
    (foldl (λ st d,
              foldl (λ st c,
                       foldl (λ st z,
                                step total st
                                  {| digits := d; carryovers := c; zeros := z |})
                             st zs)
                    st cs)
           st ds).
Proof.
  revert st. induction ds as [| d ds IH]; intros st Hst; simpl; [done |].
  by apply IH, carryovers_loop_settled.
Qed.

(** Over non-empty value arrays and no exercises the search settles on
    the first triple. *)
Lemma search_loops_without_exercises d0 ds c0 cs z0 zs (st : SearchState) :
  compositeScore st.1.1 = NegInfinity →
  settled {| digits := d0; carryovers := c0; zeros := z0 |}
    (search_loops [] evaluations modeFilter detectOutliers outlierSensitivity
       onProgress (d0 :: ds) (c0 :: cs) (z0 :: zs) st).
Proof.
  intros Hst. unfold search_loops.
  generalize (length (d0 :: ds) * length (c0 :: cs) * length (z0 :: zs))%nat.
  intros total. fold (step total).
  rewrite (foldl_cons_eq _ _ d0 ds). cbv beta.
  rewrite (foldl_cons_eq _ _ c0 cs). cbv beta.
  rewrite (foldl_cons_eq _ _ z0 zs).
  apply digits_loop_settled, carryovers_loop_settled, zeros_loop_settled.
  by apply step_first.
Qed.

End Search.

Section Grid.

Lemma range_values_head (max step : Q) (fuel : nat) (l : list Q) :
  range_values fuel 0 max step = Some l → 0 <= max →
  ∃ v rest, l = v :: rest ∧ v == 0.
Proof.
  destruct fuel as [| fuel]; [done |]. simpl. intros Hl Hmax.
  apply Qle_bool_iff in Hmax. rewrite Hmax in Hl.
  destruct (range_values fuel (0 + step) max step) as [rest |]; [| done].
  injection Hl as <-. by eexists _, rest.
Qed.

(** More fuel does not change the value arrays. *)
Lemma range_values_fuel (fuel fuel' : nat) (v max step : Q) (l : list Q) :
  range_values fuel v max step = Some l → (fuel ≤ fuel')%nat →
  range_values fuel' v max step = Some l.
Proof.
  revert fuel' v l. induction fuel as [| fuel IH]; intros fuel' v l; [done |].
  intros Hl Hle. destruct fuel' as [| fuel']; [lia |]. simpl in *.
  destruct (Qle_bool v max); [| done].
  destruct (range_values fuel (v + step) max step) as [rest |] eqn:Hrest;
    [| done].
  by rewrite (IH fuel' _ rest) by (done || lia).
Qed.

(** The fuel of [gridSearch] is enough: in exact arithmetic each of the
    three loops stops after 26 turns. *)
Lemma grid_values :
  (length <$> range_values 64 0 5 0.2) = Some 26%nat
  ∧ (length <$> range_values 64 0 10 0.4) = Some 26%nat.
Proof. by vm_compute. Qed.

(** Any fuel from 27 on gives the search of [gridSearch]. *)
Lemma gridSearch_fuel_enough (fuel : nat) exercises evaluations modeFilter
  detectOutliers outlierSensitivity onProgress :
  (27 ≤ fuel)%nat →
  gridSearch_fuel fuel exercises evaluations modeFilter detectOutliers
    outlierSensitivity onProgress
  = gridSearch exercises evaluations modeFilter detectOutliers
      outlierSensitivity onProgress.
Proof.
  intros Hfuel. unfold gridSearch, gridSearch_fuel.
  destruct (range_values 27 0 5 0.2) as [dv |] eqn:Hdv; [| by vm_compute in Hdv].
  destruct (range_values 27 0 10 0.4) as [cv |] eqn:Hcv; [| by vm_compute in Hcv].
  rewrite (range_values_fuel 27 fuel _ _ _ dv Hdv Hfuel).
  rewrite (range_values_fuel 27 fuel _ _ _ cv Hcv Hfuel).
  rewrite (range_values_fuel 27 64 _ _ _ dv Hdv) by lia.
  by rewrite (range_values_fuel 27 64 _ _ _ cv Hcv) by lia.
Qed.

(** C4.  Called with no exercises, [gridSearch] returns a result with
    composite score 0 and the first triple of the grid, (0, 0, 0), as
    weights; the incumbent it starts from, with the default weights, is
    not returned. *)
Theorem gridSearch_without_exercises
  (evaluations : list EvaluationRecord.t) (modeFilter : ModeFilter)
  (detectOutliers : bool) (outlierSensitivity : Q) (onProgress : bool) :
  ∃ result calls,
    gridSearch [] evaluations modeFilter detectOutliers outlierSensitivity
      onProgress = Some (result, calls)
    ∧ compositeScore result = Finite 0%R
    ∧ digits (weights result) == 0
    ∧ carryovers (weights result) == 0
    ∧ zeros (weights result) == 0
    ∧ result ≠ initial_best
    ∧ ¬ digits (weights result) == digits (weights initial_best).
Proof.
  unfold gridSearch, gridSearch_fuel.
  destruct grid_values as [Hd Hc].
  destruct (range_values 64 0 5 0.2) as [dv |] eqn:Hdv; [| done].
  destruct (range_values 64 0 10 0.4) as [cv |] eqn:Hcv; [| done].
  destruct (range_values_head _ _ _ _ Hdv) as (d0 & ds & -> & Hd0); [done |].
  destruct (range_values_head _ _ _ _ Hcv) as (c0 & cs & -> & Hc0); [done |].
  cbn [mbind option_bind].
  pose proof (search_loops_without_exercises evaluations modeFilter
                detectOutliers outlierSensitivity onProgress
                d0 ds c0 cs d0 ds (initial_best, 0%nat, []) eq_refl)
    as [Hw Hscore].
  destruct (search_loops _ _ _ _ _ _ _ _ _ _) as [[best n] calls].
  simpl in Hw, Hscore.
  eexists best, _. split; [reflexivity |].
  rewrite Hw. simpl. repeat split; try done.
  - intros ->. done.
  - rewrite Hd0. by vm_compute.
Qed.
End Grid.

Section OutlierFacts.

#[local] Existing Instance Qle_total.
#[local] Existing Instance Qle_transitive.

Lemma sorted_lookup_le (l : list Q) (i j : nat) (a b : Q) :
  StronglySorted Qle l → (i ≤ j)%nat →
  l !! i = Some a → l !! j = Some b → a <= b.
Proof.
  intros Hs. revert i j a b.
  induction Hs as [| c l Hs IH Hall]; intros i j a b Hij Hi Hj; [done |].
  destruct i as [| i], j as [| j]; simpl in *.
  - injection Hi as <-. injection Hj as <-. apply Qle_refl.
  - injection Hi as <-. rewrite Forall_forall in Hall. apply Hall.
    by eapply list_elem_of_lookup_2.
  - lia.
  - apply (IH i j); [lia | done | done].
Qed.

Lemma sort_ascending_sorted values : StronglySorted Qle (sort_ascending values).
Proof. unfold sort_ascending. apply StronglySorted_merge_sort; apply _. Qed.

Lemma sort_ascending_elem values (k : nat) (q : Q) :
  sort_ascending values !! k = Some q → q ∈ values.
Proof.
  intros Hk. apply list_elem_of_lookup_2 in Hk.
  unfold sort_ascending in Hk. by rewrite merge_sort_Permutation in Hk.
Qed.

Lemma quartiles_ordered values (q1 q3 : Q) :
  sort_ascending values !! (length values / 4)%nat = Some q1 →
  sort_ascending values !! (3 * length values / 4)%nat = Some q3 →
  q1 <= q3.
Proof.
  intros H1 H3.
  apply (sorted_lookup_le (sort_ascending values)
           (length values / 4)%nat (3 * length values / 4)%nat);
    [apply sort_ascending_sorted | | done | done].
  apply Nat.Div0.div_le_mono. lia.
Qed.

Lemma detectOutliersIQR_short values s :
  (length values < 4)%nat → detectOutliersIQR values s = ∅.
Proof.
  intros Hlt. unfold detectOutliersIQR. apply Nat.ltb_lt in Hlt. by rewrite Hlt.
Qed.

(** X1.  A higher sensitivity flags fewer values. *)
Theorem detectOutliersIQR_less_sensitive (values : list Q) (s s' : Q) :
  s <= s' → detectOutliersIQR values s' ⊆ detectOutliersIQR values s.
Proof.
  intros Hs. destruct (decide (length values < 4)%nat) as [Hlt | Hge].
  - by rewrite !detectOutliersIQR_short.
  - assert (Hlen : (4 ≤ length values)%nat) by lia.
    destruct (quartiles_exist values Hlen) as (q1 & q3 & Hq1 & Hq3).
    pose proof (quartiles_ordered values q1 q3 Hq1 Hq3) as Hord.
    intros i.
    rewrite (detectOutliersIQR_elem values s' q1 q3 i Hlen Hq1 Hq3).
    rewrite (detectOutliersIQR_elem values s q1 q3 i Hlen Hq1 Hq3).
    intros (v & Hv & Hout). exists v. split; [done |].
    destruct Hout as [Hout | Hout]; [left | right]; nra.
Qed.

Lemma detectOutliersIQR_less_sensitive_witness :
  detectOutliersIQR [1; 2; 3; 4; 100] 50 ⊆ detectOutliersIQR [1; 2; 3; 4; 100] 1.5.
Proof. apply detectOutliersIQR_less_sensitive. by vm_compute. Defined.

(** X2.  With a non-negative sensitivity the values from the lower to the upper
    quartile are never flagged. *)
Theorem detectOutliersIQR_spares_quartiles (values : list Q) (s : Q) :
  (4 ≤ length values)%nat → 0 <= s →
  ∃ q1 q3,
    sort_ascending values !! (length values / 4)%nat = Some q1
    ∧ sort_ascending values !! (3 * length values / 4)%nat = Some q3
    ∧ q1 <= q3
    ∧ ∀ i v, values !! i = Some v → q1 <= v → v <= q3 →
             i ∉ detectOutliersIQR values s.
Proof.
  intros Hlen Hs.
  destruct (quartiles_exist values Hlen) as (q1 & q3 & Hq1 & Hq3).
  pose proof (quartiles_ordered values q1 q3 Hq1 Hq3) as Hord.
  exists q1, q3. repeat split; try done.
  intros i v Hv Hlo Hhi.
  rewrite (detectOutliersIQR_elem values s q1 q3 i Hlen Hq1 Hq3).
  intros (w & Hw & Hout). rewrite Hv in Hw. injection Hw as <-.
  destruct Hout; nra.
Qed.

Lemma detectOutliersIQR_spares_quartiles_witness :
  ∃ q1 q3,
    sort_ascending [100; 1; 2; 3; 4] !! 1%nat = Some q1
    ∧ sort_ascending [100; 1; 2; 3; 4] !! 3%nat = Some q3
    ∧ q1 <= q3
    ∧ ∀ i v, [100; 1; 2; 3; 4] !! i = Some v → q1 <= v → v <= q3 →
             i ∉ detectOutliersIQR [100; 1; 2; 3; 4] 1.5.
Proof.
  apply (detectOutliersIQR_spares_quartiles [100; 1; 2; 3; 4] 1.5).
  - simpl. lia.
  - by vm_compute.
Defined.

(** X3.  The flagged indices are indices of the input, and with a
    non-negative sensitivity they are never all of them. *)
Theorem detectOutliersIQR_proper (values : list Q) (s : Q) :
  0 <= s →
  (∀ i, i ∈ detectOutliersIQR values s → (i < length values)%nat)
  ∧ (values ≠ [] →
     ∃ i, (i < length values)%nat ∧ i ∉ detectOutliersIQR values s).
Proof.
  intros Hs. destruct (decide (length values < 4)%nat) as [Hlt | Hge].
  - rewrite detectOutliersIQR_short by done. split.
    + intros i Hi. by apply not_elem_of_empty in Hi.
    + intros Hne. exists 0%nat. split; [| apply not_elem_of_empty].
      destruct values; [done | simpl; lia].
  - assert (Hlen : (4 ≤ length values)%nat) by lia.
    destruct (quartiles_exist values Hlen) as (q1 & q3 & Hq1 & Hq3).
    pose proof (quartiles_ordered values q1 q3 Hq1 Hq3) as Hord.
    split.
    + intros i.
      rewrite (detectOutliersIQR_elem values s q1 q3 i Hlen Hq1 Hq3).
      intros (v & Hv & _). by eapply lookup_lt_Some.
    + intros _. pose proof (sort_ascending_elem values _ q1 Hq1) as Hin.
      apply list_elem_of_lookup_1 in Hin as [i Hi]. exists i.
      split; [by eapply lookup_lt_Some |].
      rewrite (detectOutliersIQR_elem values s q1 q3 i Hlen Hq1 Hq3).
      intros (w & Hw & Hout). rewrite Hi in Hw. injection Hw as <-.
      destruct Hout; nra.
Qed.

Lemma detectOutliersIQR_proper_witness :
  (∀ i, i ∈ detectOutliersIQR [1; 2; 3; 4; 100] 0 → (i < 5)%nat)
  ∧ ([1; 2; 3; 4; 100] ≠ [] →
     ∃ i, (i < 5)%nat ∧ i ∉ detectOutliersIQR [1; 2; 3; 4; 100] 0).
Proof. apply (detectOutliersIQR_proper [1; 2; 3; 4; 100] 0). by vm_compute. Defined.

(** Values that are all equal have no outlier, whatever the sensitivity. *)
Theorem detectOutliersIQR_constant (values : list Q) (s v0 : Q) :
  Forall (λ v, v == v0) values → detectOutliersIQR values s = ∅.
Proof.
  intros Hall. destruct (decide (length values < 4)%nat) as [Hlt | Hge];
    [by apply detectOutliersIQR_short |].
  assert (Hlen : (4 ≤ length values)%nat) by lia.
  destruct (quartiles_exist values Hlen) as (q1 & q3 & Hq1 & Hq3).
  rewrite Forall_forall in Hall.
  pose proof (Hall _ (sort_ascending_elem values _ q1 Hq1)) as H1.
  pose proof (Hall _ (sort_ascending_elem values _ q3 Hq3)) as H3.
  apply elem_of_equiv_empty_L. intros i.
  rewrite (detectOutliersIQR_elem values s q1 q3 i Hlen Hq1 Hq3).
  intros (v & Hv & Hout).
  assert (Hv0 : v == v0).
  { apply Hall. by eapply list_elem_of_lookup_2. }
  rewrite H1, H3, Hv0 in Hout. destruct Hout; nra.
Qed.

Lemma detectOutliersIQR_constant_witness :
  detectOutliersIQR [50; 50; 50; 50; 50] (-3) = ∅.
Proof.
  apply (detectOutliersIQR_constant _ _ 50). repeat constructor.
Defined.
End OutlierFacts.

Section StoreFacts.

Implicit Types (h : heap) (flag : nat → bool).

Lemma set_isOutlier_twice (b b' : bool) (p : DataPoint.t) :
  DataPoint.set_isOutlier b (DataPoint.set_isOutlier b' p)
  = DataPoint.set_isOutlier b p.
Proof. reflexivity. Qed.

(** Whatever was written before, a later write decides the flag. *)
Lemma write_fold_overwritten flag (ps : list (nat * nat)) h (l : nat) (b : bool) :
  DataPoint.set_isOutlier b <$> foldl (write_step flag) h ps !! l
  = DataPoint.set_isOutlier b <$> h !! l.
Proof.
  revert h. induction ps as [| [j l'] ps IH]; intros h; simpl; [done |].
  rewrite IH, lookup_alter. case_decide; [| done].
  subst. by destruct (h !! l).
Qed.

Lemma write_fold_dom flag (ps : list (nat * nat)) h :
  dom (foldl (write_step flag) h ps) = dom h.
Proof.
  revert h. induction ps as [| [j l'] ps IH]; intros h; simpl; [done |].
  rewrite IH. apply leibniz_equiv, dom_alter.
Qed.

Lemma imap_snd_id {A} (f : nat → A → nat * A) (l : list A) :
  (∀ n a, (f n a).2 = a) → (imap f l).*2 = l.
Proof.
  intros Hf. apply list_eq. intros i.
  rewrite list_lookup_fmap, list_lookup_imap.
  destruct (l !! i); simpl; [by rewrite Hf | done].
Qed.

Lemma write_flags_last flag h (points : list nat) (j l : nat) :
  points !! j = Some l →
  (∀ k, (j < k)%nat → points !! k ≠ Some l) →
  write_flags flag h points !! l
  = DataPoint.set_isOutlier (flag j) <$> h !! l.
Proof.
  intros Hj Hlast. unfold write_flags.
  rewrite <- (take_drop_middle points j l Hj).
  rewrite imap_app, imap_cons, foldl_app. simpl.
  assert (Hlen : length (take j points) = j).
  { apply length_take_le. apply lookup_lt_Some in Hj. lia. }
  rewrite write_fold_notin.
  - rewrite lookup_alter_eq, Hlen, Nat.add_0_r.
    rewrite <- (write_fold_overwritten flag (imap pair (take j points)) h l).
    by destruct (foldl _ _ _ !! l).
  - rewrite imap_snd_id by done.
    intros Hin. apply list_elem_of_lookup_1 in Hin as [k Hk].
    rewrite lookup_drop in Hk. by apply (Hlast (S j + k)%nat); [lia |].
Qed.

Lemma write_fold_const (b : bool) (ps : list (nat * nat)) h (l : nat) :
  l ∈ ps.*2 →
  foldl (write_step (λ _, b)) h ps !! l = DataPoint.set_isOutlier b <$> h !! l.
Proof.
  revert h. induction ps as [| [j l'] ps IH]; intros h Hl; simpl.
  - by inversion Hl.
  - destruct (decide (l ∈ ps.*2)) as [Hin | Hnin].
    + rewrite IH by done. rewrite lookup_alter. case_decide; [| done].
      subst. by destruct (h !! l).
    + rewrite write_fold_notin by done.
      rewrite fmap_cons in Hl. apply elem_of_cons in Hl as [-> | Hl]; [| done].
      apply lookup_alter_eq.
Qed.

(** X4.  What a call may touch: the returned array holds the references it
    was given, no object is added or removed, an object that is not in
    the array is left as it was, and no coordinate is written. *)
Theorem applyOutlierDetection_footprint h (points : list nat) (s : Q)
  (enabled : bool) :
  let '(h', result) := applyOutlierDetection h points s enabled in
  result = points
  ∧ dom h' = dom h
  ∧ (∀ l : nat, l ∉ points → h' !! l = h !! l)
  ∧ (∀ l : nat,
       DataPoint.x <$> h' !! l = DataPoint.x <$> h !! l
       ∧ DataPoint.y <$> h' !! l = DataPoint.y <$> h !! l).
Proof.
  unfold applyOutlierDetection.
  destruct (negb enabled || (length points <? 4)%nat);
    (split; [done |]; split; [apply write_fold_dom |];
     split; [intros l Hl; by apply write_flags_notin
            | intros l; apply write_fold_xy]).
Qed.

(** X5.  A disabled call, and a call on fewer than four points, clears the
    flag of every object of the array, whatever the flag was. *)
Theorem applyOutlierDetection_clears h (points : list nat) (s : Q)
  (enabled : bool) (l : nat) (p : DataPoint.t) :
  enabled = false ∨ (length points < 4)%nat →
  l ∈ points → h !! l = Some p →
  (applyOutlierDetection h points s enabled).1 !! l
  = Some (DataPoint.set_isOutlier false p).
Proof.
  intros Hoff Hl Hp. unfold applyOutlierDetection.
  assert (Hcond : negb enabled || (length points <? 4)%nat = true).
  { destruct Hoff as [-> | Hlt]; [done |].
    apply Nat.ltb_lt in Hlt. rewrite Hlt. apply orb_true_r. }
  rewrite Hcond. simpl. unfold write_flags.
  rewrite write_fold_const by (by rewrite imap_pair_snd).
  by rewrite Hp.
Qed.

Lemma applyOutlierDetection_clears_witness :
  (applyOutlierDetection {[ 7%nat := DataPoint.mk 1 2 (Some true) ]}
     [7%nat; 7%nat] 1.5 true).1 !! 7%nat
  = Some (DataPoint.set_isOutlier false (DataPoint.mk 1 2 (Some true))).
Proof.
  apply applyOutlierDetection_clears.
  - right. simpl. lia.
  - by left.
  - by vm_compute.
Defined.

(** X6.  An enabled call on at least four points leaves in every object of
    the array the flag of the last index that refers to it: flagged when
    that index is an outlier on the x-axis or on the y-axis of the values
    read before the call. *)
Theorem applyOutlierDetection_last_reference h (points : list nat) (s : Q)
  (j l : nat) :
  (4 ≤ length points)%nat →
  points !! j = Some l →
  (∀ k, (j < k)%nat → points !! k ≠ Some l) →
  let xOutliers :=
    detectOutliersIQR ((λ p, DataPoint.x (h !!! p)) <$> points) s in
  let yOutliers :=
    detectOutliersIQR ((λ p, DataPoint.y (h !!! p)) <$> points) s in
  (applyOutlierDetection h points s true).1 !! l
  = DataPoint.set_isOutlier
      (bool_decide (j ∈ xOutliers) || bool_decide (j ∈ yOutliers))
    <$> h !! l.
Proof.
  intros Hlen Hj Hlast xOutliers yOutliers. unfold applyOutlierDetection.
  apply Nat.ltb_ge in Hlen. rewrite Hlen. simpl.
  by apply (write_flags_last
              (λ idx, bool_decide (idx ∈ xOutliers) || bool_decide (idx ∈ yOutliers))).
Qed.

Lemma applyOutlierDetection_last_reference_witness :
  let h : heap :=
    {[ 0%nat := DataPoint.mk 50 2 (Some false);
       1%nat := DataPoint.mk 50 60 (Some false) ]} in
  (applyOutlierDetection h [1; 0; 0; 0; 0; 1]%nat 1.5 true).1 !! 1%nat
  = DataPoint.set_isOutlier
      (bool_decide
         (5%nat ∈ detectOutliersIQR
                    ((λ p, DataPoint.x (h !!! p)) <$> [1; 0; 0; 0; 0; 1]%nat) 1.5)
       || bool_decide
            (5%nat ∈ detectOutliersIQR
                       ((λ p, DataPoint.y (h !!! p)) <$> [1; 0; 0; 0; 0; 1]%nat)
                       1.5))
    <$> h !! 1%nat.
Proof.
  intros h.
  apply (applyOutlierDetection_last_reference h [1; 0; 0; 0; 0; 1]%nat 1.5 5 1).
  - simpl. lia.
  - done.
  - intros k Hk. destruct k as [| [| [| [| [| [| k]]]]]]; try lia. done.
Defined.

(** X7.  The outliers counted and the points kept by the filter make up the
    point set. *)
Theorem outlier_count_and_filtered_points (points : list DataPoint.t) :
  (useOutlierCount points + length (useFilteredPoints points true))%nat
  = length points
  ∧ useFilteredPoints points false = points.
Proof.
  split; [| done]. unfold useOutlierCount, useFilteredPoints.
  induction points as [| p ps IH]; simpl; [done |].
  unfold DataPoint.not_outlier at 1.
  destruct (default false (DataPoint.isOutlier p)); simpl; lia.
Qed.
End StoreFacts.

Section DifficultyFacts.

Lemma String_length_pos (n : N) : (1 ≤ String.length (JS.String n))%nat.
Proof.
  unfold JS.String. destruct n as [| p]; simpl; [lia |].
  pose proof (DecimalPos.Unsigned.to_uint_nonnil p) as Hnil.
  destruct (Pos.to_uint p); simpl; (done || lia).
Qed.

Lemma split_length (s : string) : length (JS.split s) = String.length s.
Proof. unfold JS.split. induction s; simpl; [done | by rewrite IHs]. Qed.

Lemma match_zeros_le (s : string) : (JS.match_zeros s ≤ String.length s)%nat.
Proof.
  unfold JS.match_zeros. rewrite <- split_length. apply length_filter.
Qed.

Lemma carry_fold_bound strA strB (l : list nat) (st : nat * nat) :
  ((foldl (carry_step strA strB) st l).1 ≤ st.1 + length l)%nat.
Proof.
  revert st. induction l as [| i l IH]; intros st; simpl; [lia |].
  etransitivity; [apply IH |].
  unfold carry_step. destruct st as [count carry].
  destruct (JS.parseInt (default "0"%char (strA !! i))),
           (JS.parseInt (default "0"%char (strB !! i))); simpl; try lia.
  case_match; simpl; lia.
Qed.

Lemma countCarryovers_le_max (a b : N) :
  (countCarryovers a b
   ≤ Nat.max (String.length (JS.String a)) (String.length (JS.String b)))%nat.
Proof.
  unfold countCarryovers.
  etransitivity; [apply carry_fold_bound |].
  rewrite length_seq, !length_reverse, !split_length. simpl. lia.
Qed.

Lemma countZeros_bounds (a b : N) :
  (- Z.of_nat (countTotalDigits a b) ≤ countZeros a b ≤ 0)%Z.
Proof.
  unfold countTotalDigits, countZeros.
  pose proof (match_zeros_le (JS.String a)).
  pose proof (match_zeros_le (JS.String b)). lia.
Qed.

(** X8.  Bounds of the three features: at most one carry per digit position
    and so fewer carries than digits, at most as many zeros as digits, at
    least two digits. *)
Theorem feature_bounds (a b : N) :
  (countCarryovers a b
   ≤ Nat.max (String.length (JS.String a)) (String.length (JS.String b)))%nat
  ∧ (countCarryovers a b < countTotalDigits a b)%nat
  ∧ (- Z.of_nat (countTotalDigits a b) ≤ countZeros a b ≤ 0)%Z
  ∧ (2 ≤ countTotalDigits a b)%nat.
Proof.
  pose proof (String_length_pos a) as Ha. pose proof (String_length_pos b) as Hb.
  pose proof (countCarryovers_le_max a b) as Hc.
  pose proof (countZeros_bounds a b) as Hz.
  unfold countTotalDigits in *. repeat split; lia.
Qed.

(** X9.  With non-negative carry and zero weights the score is at least
    [digits - zeros] times the digit count, so it is not negative when
    the zero weight does not exceed the digit weight. *)
Theorem calculateDifficultyScore_lower_bound (ex : ExerciseRecord.t)
  (w : DifficultyWeights) :
  0 <= carryovers w → 0 <= zeros w →
  (digits w - zeros w)
  * JS.num (countTotalDigits (ExerciseRecord.operandA ex)
                             (ExerciseRecord.operandB ex))
  <= calculateDifficultyScore ex w
  ∧ (zeros w <= digits w → 0 <= calculateDifficultyScore ex w).
Proof.
  intros Hc Hz. unfold calculateDifficultyScore.
  set (a := ExerciseRecord.operandA ex). set (b := ExerciseRecord.operandB ex).
  pose proof (countZeros_bounds a b) as [Hlo Hhi].
  assert (Hcar : 0 <= JS.num (countCarryovers a b)).
  { unfold JS.num, Qle. simpl. lia. }
  assert (Hdig : 0 <= JS.num (countTotalDigits a b)).
  { unfold JS.num, Qle. simpl. lia. }
  assert (Hz1 : - JS.num (countTotalDigits a b) <= inject_Z (countZeros a b)).
  { unfold JS.num, Qle. simpl. lia. }
  assert (Hz2 : inject_Z (countZeros a b) <= 0).
  { unfold Qle. simpl. lia. }
  split; [nra | intros Hzd; nra].
Qed.

Lemma calculateDifficultyScore_lower_bound_witness :
  (1.0 - 0.5) * JS.num (countTotalDigits 1000 1)
  <= calculateDifficultyScore (solved 1 1000 1 4) DEFAULT_DIFFICULTY_WEIGHTS
  ∧ (0.5 <= 1.0 →
     0 <= calculateDifficultyScore (solved 1 1000 1 4) DEFAULT_DIFFICULTY_WEIGHTS).
Proof.
  apply (calculateDifficultyScore_lower_bound (solved 1 1000 1 4)
           DEFAULT_DIFFICULTY_WEIGHTS); by vm_compute.
Defined.

Lemma range_encloses exercises (w : DifficultyWeights) modeFilter :
  let range := calculateDifficultyRange exercises w modeFilter in
  DifficultyRange.min range < DifficultyRange.max range
  ∧ Forall (λ s, DifficultyRange.min range <= s <= DifficultyRange.max range)
           (raw_scores exercises w modeFilter).
Proof.
  simpl. unfold calculateDifficultyRange. rewrite range_scores_raw.
  destruct (raw_scores exercises w modeFilter) as [| s rest] eqn:Hscores.
  - split; [by vm_compute | constructor].
  - destruct (Math_min_is_minimum s rest) as [_ Hlo].
    destruct (Math_max_is_maximum s rest) as [Hmax Hhi].
    rewrite Forall_forall in Hlo, Hhi.
    assert (Hle : JS.Math_min s rest <= JS.Math_max s rest) by by apply Hlo.
    destruct (Qeq_bool _ _) eqn:Heq; simpl.
    + apply Qeq_bool_eq in Heq. split; [lra |].
      apply Forall_forall. intros v Hv.
      pose proof (Hlo v Hv). pose proof (Hhi v Hv). lra.
    + apply Qeq_bool_neq in Heq. split; [lra |].
      apply Forall_forall. intros v Hv. split; [by apply Hlo | by apply Hhi].
Qed.

Lemma score_in_raw_scores exercises (w : DifficultyWeights) modeFilter ex :
  ex ∈ exercises →
  mode_mismatch modeFilter (ExerciseRecord.mode ex) = false →
  calculateDifficultyScore ex w ∈ raw_scores exercises w modeFilter.
Proof.
  intros Hex Hmode. unfold raw_scores, filtered_population.
  apply list_elem_of_fmap. exists ex. split; [done |].
  apply list_elem_of_In, filter_In. split; [by apply list_elem_of_In |].
  by rewrite Hmode.
Qed.

(** X10.  The range is never degenerate, so [normalizeDifficulty] never
    divides by zero, and it encloses the raw score of every exercise of
    the filtered population. *)
Theorem calculateDifficultyRange_proper exercises (w : DifficultyWeights)
  modeFilter :
  let range := calculateDifficultyRange exercises w modeFilter in
  DifficultyRange.min range < DifficultyRange.max range
  ∧ ∀ ex, ex ∈ exercises →
          mode_mismatch modeFilter (ExerciseRecord.mode ex) = false →
          DifficultyRange.min range <= calculateDifficultyScore ex w
          ∧ calculateDifficultyScore ex w <= DifficultyRange.max range.
Proof.
  intros range. destruct (range_encloses exercises w modeFilter) as [Hlt Hall].
  split; [done |]. intros ex Hex Hmode.
  rewrite Forall_forall in Hall.
  by apply Hall, score_in_raw_scores.
Qed.

Lemma normalize_between (raw : Q) (range : DifficultyRange.t) :
  DifficultyRange.min range < DifficultyRange.max range →
  DifficultyRange.min range <= raw → raw <= DifficultyRange.max range →
  0 <= normalizeDifficulty raw range ∧ normalizeDifficulty raw range <= 100.
Proof.
  intros Hlt Hlo Hhi. unfold normalizeDifficulty.
  set (d := DifficultyRange.max range - DifficultyRange.min range).
  assert (Hd : 0 < d) by (unfold d; lra).
  assert (H0 : 0 <= (raw - DifficultyRange.min range) / d).
  { apply Qle_shift_div_l; [done | lra]. }
  assert (H1 : (raw - DifficultyRange.min range) / d <= 1).
  { apply Qle_shift_div_r; [done | unfold d; lra]. }
  split; lra.
Qed.

Lemma difficulty_on_scale exercises (w : DifficultyWeights) modeFilter ex :
  ex ∈ exercises →
  mode_mismatch modeFilter (ExerciseRecord.mode ex) = false →
  0 <= difficulty_of ex w (calculateDifficultyRange exercises w modeFilter)
  ∧ difficulty_of ex w (calculateDifficultyRange exercises w modeFilter) <= 100.
Proof.
  intros Hex Hmode. unfold difficulty_of.
  destruct (range_encloses exercises w modeFilter) as [Hlt Hall].
  rewrite Forall_forall in Hall.
  destruct (Hall _ (score_in_raw_scores exercises w modeFilter ex Hex Hmode)).
  by apply normalize_between.
Qed.

(** X11.  Normalised with the range of its own population, the difficulty of
    an exercise that passes the mode filter lies between 0 and 100. *)
Theorem normalizeDifficulty_within_scale exercises (w : DifficultyWeights)
  modeFilter ex :
  ex ∈ exercises →
  mode_mismatch modeFilter (ExerciseRecord.mode ex) = false →
  0 <= normalizeDifficulty (calculateDifficultyScore ex w)
         (calculateDifficultyRange exercises w modeFilter)
  ∧ normalizeDifficulty (calculateDifficultyScore ex w)
      (calculateDifficultyRange exercises w modeFilter) <= 100.
Proof. apply difficulty_on_scale. Qed.

Lemma normalizeDifficulty_within_scale_witness :
  0 <= normalizeDifficulty
         (calculateDifficultyScore (solved 2 12 1 2) DEFAULT_DIFFICULTY_WEIGHTS)
         (calculateDifficultyRange five_exercises DEFAULT_DIFFICULTY_WEIGHTS
            (only trial))
  ∧ normalizeDifficulty
      (calculateDifficultyScore (solved 2 12 1 2) DEFAULT_DIFFICULTY_WEIGHTS)
      (calculateDifficultyRange five_exercises DEFAULT_DIFFICULTY_WEIGHTS
         (only trial))
    <= 100.
Proof.
  apply normalizeDifficulty_within_scale.
  - right. by left.
  - done.
Defined.

(** When all raw scores of the filtered population are equal, every one
    of them is normalised to 50. *)
Theorem normalizeDifficulty_of_equal_scores exercises (w : DifficultyWeights)
  modeFilter ex (m : Q) :
  Forall (λ s, s == m) (raw_scores exercises w modeFilter) →
  ex ∈ exercises →
  mode_mismatch modeFilter (ExerciseRecord.mode ex) = false →
  normalizeDifficulty (calculateDifficultyScore ex w)
    (calculateDifficultyRange exercises w modeFilter) == 50.
Proof.
  intros Hall Hex Hmode.
  pose proof (score_in_raw_scores exercises w modeFilter ex Hex Hmode) as Hin.
  unfold calculateDifficultyRange. rewrite range_scores_raw.
  rewrite Forall_forall in Hall.
  destruct (raw_scores exercises w modeFilter) as [| s rest]; [by inversion Hin |].
  destruct (Math_min_is_minimum s rest) as [Hmin _].
  destruct (Math_max_is_maximum s rest) as [Hmax _].
  pose proof (Hall _ Hmin) as Hmin'. pose proof (Hall _ Hmax) as Hmax'.
  pose proof (Hall _ Hin) as Hs.
  rewrite (Qeq_eq_bool (JS.Math_min s rest) (JS.Math_max s rest))
    by (by rewrite Hmin', Hmax').
  unfold normalizeDifficulty. simpl. rewrite Hs, Hmin'.
  assert (Hd : m + 1 - (m - 1) == 2) by ring.
  rewrite Hd. field.
Qed.

Lemma normalizeDifficulty_of_equal_scores_witness :
  normalizeDifficulty
    (calculateDifficultyScore (solved 1 345 78 3) DEFAULT_DIFFICULTY_WEIGHTS)
    (calculateDifficultyRange [solved 1 345 78 3; solved 2 78 345 3]
       DEFAULT_DIFFICULTY_WEIGHTS all) == 50.
Proof.
  apply (normalizeDifficulty_of_equal_scores _ _ _ _ 10).
  - repeat constructor; by vm_compute.
  - by left.
  - done.
Defined.
End DifficultyFacts.

Section CorrelationFacts.

#[local] Open Scope R_scope.

Lemma sumR_ext {A} (f g : A → R) (l : list A) :
  (∀ a, a ∈ l → f a = g a) → sumR f l = sumR g l.
Proof.
  induction l as [| a l IH]; intros Hfg; simpl; [done |].
  rewrite Hfg by (by left). rewrite IH; [done |].
  intros b Hb. apply Hfg. by right.
Qed.

Lemma sumR_fmap {A B} (f : B → R) (g : A → B) (l : list A) :
  sumR f (g <$> l) = sumR (λ a, f (g a)) l.
Proof.
  induction l as [| a l IH]; [done |].
  rewrite fmap_cons. cbn [sumR]. by rewrite IH.
Qed.


(** The correlation in terms of the real moments of the point set. *)
Lemma calculateCorrelation_moments points :
  calculateCorrelation points
  = if (length points <? 2)%nat then None
    else if Req_dec_T (sqrt (varX points * varY points)) 0 then None
         else Some (covXY points / sqrt (varX points * varY points)).
Proof.
  rewrite calculateCorrelation_unfold.
  by rewrite Q2R_numerator, Q2R_radicand.
Qed.

Lemma varX_nonneg points : 0 <= varX points.
Proof. apply (varF_nonneg Rx Ry points). Qed.

Lemma varY_nonneg points : 0 <= varY points.
Proof. apply (varG_nonneg Rx Ry points). Qed.

(** Point sets with the same moments have the same correlation. *)
Lemma calculateCorrelation_same_moments points points' :
  length points' = length points →
  varX points' * varY points' = varX points * varY points →
  covXY points' = covXY points →
  calculateCorrelation points' = calculateCorrelation points.
Proof.
  intros Hlen Hvar Hcov. rewrite !calculateCorrelation_moments.
  by rewrite Hlen, Hvar, Hcov.
Qed.

Lemma moments_swap points :
  varX (swap_axes <$> points) = varY points
  ∧ varY (swap_axes <$> points) = varX points
  ∧ covXY (swap_axes <$> points) = covXY points.
Proof.
  unfold varX, varY, covXY. rewrite length_fmap, !sumR_fmap.
  repeat split; try done.
  rewrite (sumR_ext (λ a, Rx (swap_axes a) * Ry (swap_axes a))
             (λ p, Rx p * Ry p)).
  - unfold Rx, Ry. simpl. ring.
  - intros p _. unfold Rx, Ry. simpl. ring.
Qed.

(** X12.  Exchanging the two axes does not change the correlation. *)
Theorem calculateCorrelation_swap (points : list DataPoint.t) :
  calculateCorrelation (swap_axes <$> points) = calculateCorrelation points.
Proof.
  destruct (moments_swap points) as (Hx & Hy & Hc).
  apply calculateCorrelation_same_moments.
  - apply length_fmap.
  - rewrite Hx, Hy. ring.
  - done.
Qed.

Lemma sumR_affine {A} (f : A → R) (a b : R) (l : list A) :
  sumR (λ p, a * f p + b) l = a * sumR f l + INR (length l) * b.
Proof.
  induction l as [| p l IH]; [simpl; ring |].
  change (length (p :: l)) with (S (length l)). rewrite S_INR. simpl.
  rewrite IH. ring.
Qed.

Lemma sumR_affine_product {A} (f g : A → R) (a b c d : R) (l : list A) :
  sumR (λ p, (a * f p + b) * (c * g p + d)) l
  = a * c * sumR (λ p, f p * g p) l + a * d * sumR f l + b * c * sumR g l
    + INR (length l) * b * d.
Proof.
  induction l as [| p l IH]; [simpl; ring |].
  change (length (p :: l)) with (S (length l)). rewrite S_INR. simpl.
  rewrite IH. ring.
Qed.

(** The moments of a point set whose coordinates are affine images of
    the coordinates of another. *)
Lemma moments_affine (g : DataPoint.t → DataPoint.t) (a b c d : R) points :
  (∀ p, Rx (g p) = a * Rx p + b) → (∀ p, Ry (g p) = c * Ry p + d) →
  varX (g <$> points) = a * a * varX points
  ∧ varY (g <$> points) = c * c * varY points
  ∧ covXY (g <$> points) = a * c * covXY points.
Proof.
  intros Hx Hy. unfold varX, varY, covXY. rewrite length_fmap, !sumR_fmap.
  rewrite (sumR_ext (λ p, Rx (g p)) (λ p, a * Rx p + b))
    by (intros; apply Hx).
  rewrite (sumR_ext (λ p, Ry (g p)) (λ p, c * Ry p + d))
    by (intros; apply Hy).
  rewrite (sumR_ext (λ p, Rx (g p) * Rx (g p))
             (λ p, (a * Rx p + b) * (a * Rx p + b)))
    by (intros; by rewrite Hx).
  rewrite (sumR_ext (λ p, Ry (g p) * Ry (g p))
             (λ p, (c * Ry p + d) * (c * Ry p + d)))
    by (intros; by rewrite Hy).
  rewrite (sumR_ext (λ p, Rx (g p) * Ry (g p))
             (λ p, (a * Rx p + b) * (c * Ry p + d)))
    by (intros; by rewrite Hx, Hy).
  rewrite !sumR_affine, !sumR_affine_product.
  repeat split; ring.
Qed.

Lemma sqrt_scaled (k v : R) : 0 < k → 0 <= v → sqrt (k * k * v) = k * sqrt v.
Proof.
  intros Hk Hv. rewrite sqrt_mult by nra. by rewrite sqrt_square by lra.
Qed.

(** The correlation of an affine image with positive slopes. *)
Lemma calculateCorrelation_affine (g : DataPoint.t → DataPoint.t)
  (a b c d : R) points :
  0 < a → 0 < c →
  (∀ p, Rx (g p) = a * Rx p + b) → (∀ p, Ry (g p) = c * Ry p + d) →
  calculateCorrelation (g <$> points) = calculateCorrelation points.
Proof.
  intros Ha Hc Hx Hy.
  destruct (moments_affine g a b c d points Hx Hy) as (HX & HY & HC).
  rewrite !calculateCorrelation_moments, length_fmap, HX, HY, HC.
  pose proof (varX_nonneg points) as HvX. pose proof (varY_nonneg points) as HvY.
  replace (a * a * varX points * (c * c * varY points))
    with ((a * c) * (a * c) * (varX points * varY points)) by ring.
  rewrite sqrt_scaled by nra.
  set (r := sqrt (varX points * varY points)).
  destruct (length points <? 2)%nat; [done |].
  destruct (Req_dec_T (a * c * r) 0) as [H0 | H0],
           (Req_dec_T r 0) as [H1 | H1]; try done.
  - exfalso. apply H1. assert (0 < a * c) by nra. nra.
  - exfalso. apply H0. rewrite H1. ring.
  - f_equal. field. split; [done | split; lra].
Qed.



(** Normalising the x-axis to the scale of a range does not change the
    correlation. *)
Theorem calculateCorrelation_normalized (range : DifficultyRange.t)
  (points : list DataPoint.t) :
  (DifficultyRange.min range < DifficultyRange.max range)%Q →
  calculateCorrelation (normalize_x range <$> points)
  = calculateCorrelation points.
Proof.
  intros Hlt.
  set (lo := DifficultyRange.min range). set (hi := DifficultyRange.max range).
  assert (Hd : ¬ (hi - lo == 0)%Q) by (unfold lo, hi; lra).
  assert (HdR : 0 < Q2R hi - Q2R lo).
  { apply Qlt_Rlt in Hlt. fold lo hi in Hlt. lra. }
  apply (calculateCorrelation_affine _ (100 / (Q2R hi - Q2R lo))
           (- Q2R lo * (100 / (Q2R hi - Q2R lo))) 1 0).
  - apply Rdiv_lt_0_compat; lra.
  - lra.
  - intros p. unfold Rx, normalize_x, normalizeDifficulty. simpl.
    fold lo hi. rewrite Q2R_mult, Q2R_div, !Q2R_minus by done.
    replace (Q2R 100) with 100 by (unfold Q2R; simpl; field).
    field. lra.
  - intros p. unfold Ry, normalize_x. simpl. ring.
Qed.

Lemma calculateCorrelation_normalized_witness :
  calculateCorrelation
    (normalize_x (DifficultyRange.mk 2 3)
       <$> [DataPoint.mk 2 0 None; DataPoint.mk 3 2 None])
  = calculateCorrelation [DataPoint.mk 2 0 None; DataPoint.mk 3 2 None].
Proof. apply calculateCorrelation_normalized. by vm_compute. Defined.

Lemma sumR_zero_each {A} (f : A → R) (l : list A) :
  (∀ a, 0 <= f a) → sumR f l = 0 → ∀ a, a ∈ l → f a = 0.
Proof.
  intros Hnn. induction l as [| b l IH]; intros Hsum a Ha; [by inversion Ha |].
  simpl in Hsum.
  assert (Hl : 0 <= sumR f l).
  { clear - Hnn. induction l as [| c l IH]; simpl; [lra | pose proof (Hnn c); lra]. }
  pose proof (Hnn b) as Hb.
  apply elem_of_cons in Ha as [-> | Ha]; [lra |].
  apply IH; [lra | done].
Qed.

(** [n * (n * Σ f² - (Σ f)²)] is the sum of the squares of [n * f - Σ f]. *)
Lemma variance_as_squares {A} (f : A → R) (l : list A) :
  INR (length l)
  * (INR (length l) * sumR (λ a, f a * f a) l - sumR f l * sumR f l)
  = sumR (λ a, (INR (length l) * f a + - sumR f l)
               * (INR (length l) * f a + - sumR f l)) l.
Proof.
  rewrite (sumR_affine_product f f (INR (length l)) (- sumR f l)
             (INR (length l)) (- sumR f l) l).
  ring.
Qed.

Lemma variance_zero_equal {A} (f : A → R) (l : list A) (a b : A) :
  INR (length l) * sumR (λ a, f a * f a) l - sumR f l * sumR f l = 0 →
  a ∈ l → b ∈ l → f a = f b.
Proof.
  intros Hvar Ha Hb.
  assert (Hn : 0 < INR (length l)).
  { apply lt_0_INR. destruct l; [by inversion Ha | simpl; lia]. }
  pose proof (variance_as_squares f l) as Hsq. rewrite Hvar, Rmult_0_r in Hsq.
  symmetry in Hsq.
  pose proof (sumR_zero_each _ l (λ c, Rle_0_sqr _) Hsq) as Heach.
  pose proof (Heach a Ha) as Hfa. pose proof (Heach b Hb) as Hfb.
  simpl in Hfa, Hfb.
  apply Rmult_integral in Hfa. apply Rmult_integral in Hfb.
  assert (INR (length l) * f a = INR (length l) * f b) by (destruct Hfa, Hfb; lra).
  by apply (Rmult_eq_reg_l (INR (length l))); [| lra].
Qed.







(** The moments of points on a line [y = a * x + b] with two different x. *)
Lemma line_moments (a b : Q) (points : list DataPoint.t) (p q : DataPoint.t) :
  Forall (λ p, DataPoint.y p == a * DataPoint.x p + b)%Q points →
  p ∈ points → q ∈ points → ¬ (DataPoint.x p == DataPoint.x q)%Q →
  varY points = Q2R a * Q2R a * varX points
  ∧ covXY points = Q2R a * varX points
  ∧ 0 < varX points
  ∧ (length points <? 2)%nat = false.
Proof.
  intros Hline Hp Hq Hpq. rewrite Forall_forall in Hline.
  assert (Hy : ∀ r, r ∈ points → Ry r = Q2R a * Rx r + Q2R b).
  { intros r Hr. unfold Ry, Rx. rewrite (Qeq_eqR _ _ (Hline r Hr)).
    by rewrite Q2R_plus, Q2R_mult. }
  repeat split.
  - unfold varY, varX.
    rewrite (sumR_ext Ry (λ r, Q2R a * Rx r + Q2R b)) by done.
    rewrite (sumR_ext (λ r, Ry r * Ry r)
               (λ r, (Q2R a * Rx r + Q2R b) * (Q2R a * Rx r + Q2R b)))
      by (intros r Hr; by rewrite Hy).
    rewrite sumR_affine, sumR_affine_product. ring.
  - unfold covXY, varX.
    rewrite (sumR_ext Ry (λ r, Q2R a * Rx r + Q2R b)) by done.
    rewrite (sumR_ext (λ r, Rx r * Ry r)
               (λ r, (1 * Rx r + 0) * (Q2R a * Rx r + Q2R b)))
      by (intros r Hr; rewrite Hy by done; ring).
    rewrite sumR_affine, sumR_affine_product. ring.
  - pose proof (varX_nonneg points) as Hnn.
    destruct (Req_dec (varX points) 0) as [H0 | H0]; [| lra].
    exfalso. apply Hpq. apply eqR_Qeq.
    by apply (variance_zero_equal Rx points p q H0).
  - apply Nat.ltb_ge. destruct points as [| r [| r' rs]]; simpl; try lia.
    + by inversion Hp.
    + exfalso. apply Hpq.
      apply list_elem_of_singleton in Hp, Hq. subst. reflexivity.
Qed.


End CorrelationFacts.

Section RSquaredFacts.

#[local] Open Scope R_scope.

Lemma Q2R_num_pos (n : nat) : (0 < n)%nat → ¬ (JS.num n == 0)%Q.
Proof.
  intros Hn H. apply Qeq_eqR in H.
  rewrite Q2R_num, RMicromega.Q2R_0 in H.
  apply lt_0_INR in Hn. lra.
Qed.

Lemma Q2R_mean (f : DataPoint.t → Q) points :
  (0 < length points)%nat →
  Q2R (reduce_sum f points / JS.num (length points))
  = sumR (λ p, Q2R (f p)) points / INR (length points).
Proof.
  intros Hn. rewrite Q2R_div by by apply Q2R_num_pos.
  by rewrite Q2R_reduce_sum, Q2R_num.
Qed.

(** Sums of products of deviations from the means. *)
Lemma centered_sum {A} (f g : A → R) (l : list A) :
  (0 < length l)%nat →
  sumR (λ p, (f p - sumR f l / INR (length l))
             * (g p - sumR g l / INR (length l))) l
  = (INR (length l) * sumR (λ p, f p * g p) l - sumR f l * sumR g l)
    / INR (length l).
Proof.
  intros Hn. apply lt_0_INR in Hn.
  rewrite (sumR_ext _ (λ p, (1 * f p + - (sumR f l / INR (length l)))
                            * (1 * g p + - (sumR g l / INR (length l)))))
    by (intros; ring).
  rewrite sumR_affine_product. field. lra.
Qed.

Section Moments.
Context (points : list DataPoint.t) (Hn : (0 < length points)%nat).

Let n := JS.num (length points).
Let meanX := (reduce_sum DataPoint.x points / n)%Q.
Let meanY := (reduce_sum DataPoint.y points / n)%Q.

Lemma Q2R_ssTot :
  Q2R (reduce_sum (λ p, Math_pow_2 (DataPoint.y p - meanY)) points)
  = varY points / INR (length points).
Proof.
  rewrite Q2R_reduce_sum. unfold varY. rewrite <- (centered_sum Ry Ry) by done.
  apply sumR_ext. intros p _. unfold Math_pow_2, meanY, n.
  by rewrite Q2R_mult, Q2R_minus, Q2R_mean.
Qed.

Lemma Q2R_sumX2 :
  Q2R (reduce_sum (λ p, Math_pow_2 (DataPoint.x p - meanX)) points)
  = varX points / INR (length points).
Proof.
  rewrite Q2R_reduce_sum. unfold varX. rewrite <- (centered_sum Rx Rx) by done.
  apply sumR_ext. intros p _. unfold Math_pow_2, meanX, n.
  by rewrite Q2R_mult, Q2R_minus, Q2R_mean.
Qed.

Lemma Q2R_sumXY :
  Q2R (reduce_sum (λ p, (DataPoint.x p - meanX) * (DataPoint.y p - meanY))%Q
         points)
  = covXY points / INR (length points).
Proof.
  rewrite Q2R_reduce_sum. unfold covXY. rewrite <- (centered_sum Rx Ry) by done.
  apply sumR_ext. intros p _. unfold meanX, meanY, n.
  by rewrite Q2R_mult, !Q2R_minus, !Q2R_mean.
Qed.

(** The residual sum of squares of the line with slope [slope] through
    the point of the means. *)
Lemma Q2R_ssRes (slope : Q) :
  Q2R (reduce_sum
         (λ p, Math_pow_2
                 (DataPoint.y p
                  - (slope * DataPoint.x p + (meanY - slope * meanX))))%Q
         points)
  = (varY points - 2 * Q2R slope * covXY points
     + Q2R slope * Q2R slope * varX points) / INR (length points).
Proof.
  rewrite Q2R_reduce_sum.
  rewrite (sumR_ext _
             (λ p, (1 * (Ry p - sumR Ry points / INR (length points))
                    + - Q2R slope * (Rx p - sumR Rx points / INR (length points)))
                   * (1 * (Ry p - sumR Ry points / INR (length points))
                      + - Q2R slope
                        * (Rx p - sumR Rx points / INR (length points))))).
  - rewrite sumR_square_linear.
    rewrite (centered_sum Ry Ry), (centered_sum Rx Rx), (centered_sum Ry Rx)
      by done.
    unfold varX, varY, covXY.
    rewrite (sumR_ext (λ p, Ry p * Rx p) (λ p, Rx p * Ry p))
      by (intros; ring).
    apply lt_0_INR in Hn. field. lra.
  - intros p _. unfold Math_pow_2, meanX, meanY, n.
    rewrite Q2R_mult, !Q2R_minus, Q2R_plus, !Q2R_mult, Q2R_minus, Q2R_mult,
      !Q2R_mean by done.
    unfold Rx, Ry. ring.
Qed.
End Moments.

Lemma Qeq_bool_zero_iff (q : Q) : Qeq_bool q 0 = true ↔ Q2R q = 0.
Proof.
  rewrite Qeq_bool_iff. split.
  - intros H. apply Qeq_eqR in H. by rewrite RMicromega.Q2R_0 in H.
  - intros H. apply eqR_Qeq. by rewrite RMicromega.Q2R_0.
Qed.

(** [calculateRSquared] in terms of the real moments. *)
Lemma calculateRSquared_moments points :
  (2 ≤ length points)%nat →
  (varX points = 0 ∨ varY points = 0 → calculateRSquared points = None)
  ∧ (varX points ≠ 0 → varY points ≠ 0 →
     ∃ q, calculateRSquared points = Some q
          ∧ Q2R q = covXY points * covXY points
                    / (varX points * varY points)).
Proof.
  intros Hlen. assert (Hn : (0 < length points)%nat) by lia.
  assert (HnR : 0 < INR (length points)) by by apply lt_0_INR.
  unfold calculateRSquared. apply Nat.ltb_ge in Hlen as Hlen'. rewrite Hlen'.
  cbv zeta.
  pose proof (Q2R_ssTot points Hn) as HssTot.
  pose proof (Q2R_sumX2 points Hn) as HsumX2.
  pose proof (Q2R_sumXY points Hn) as HsumXY.
  cbv zeta in HssTot, HsumX2, HsumXY.
  destruct (Qeq_bool (reduce_sum (λ p, Math_pow_2 (DataPoint.y p - _)) points) 0)
    eqn:Htot.
  { apply Qeq_bool_zero_iff in Htot. rewrite HssTot in Htot.
    assert (varY points = 0).
    { apply (Rmult_eq_reg_r (/ INR (length points)));
        [unfold Rdiv in Htot; lra | apply Rinv_neq_0_compat; lra]. }
    split; [done | by intros _ ?]. }
  assert (HvY : varY points ≠ 0).
  { intros H0. apply not_true_iff_false in Htot. apply Htot.
    apply Qeq_bool_zero_iff. rewrite HssTot, H0. unfold Rdiv. ring. }
  destruct (Qeq_bool (reduce_sum (λ p, Math_pow_2 (DataPoint.x p - _)) points) 0)
    eqn:Hx2.
  { apply Qeq_bool_zero_iff in Hx2. rewrite HsumX2 in Hx2.
    assert (varX points = 0).
    { apply (Rmult_eq_reg_r (/ INR (length points)));
        [unfold Rdiv in Hx2; lra | apply Rinv_neq_0_compat; lra]. }
    split; [done | by intros ? _]. }
  assert (HvX : varX points ≠ 0).
  { intros H0. apply not_true_iff_false in Hx2. apply Hx2.
    apply Qeq_bool_zero_iff. rewrite HsumX2, H0. unfold Rdiv. ring. }
  split; [intros [? | ?]; done |]. intros _ _. eexists. split; [reflexivity |].
  assert (Hx2' : ¬ (reduce_sum
                      (λ p, Math_pow_2
                              (DataPoint.x p
                               - reduce_sum DataPoint.x points
                                 / JS.num (length points))) points == 0)%Q).
  { by apply Qeq_bool_neq. }
  assert (Htot' : ¬ (reduce_sum
                       (λ p, Math_pow_2
                               (DataPoint.y p
                                - reduce_sum DataPoint.y points
                                  / JS.num (length points))) points == 0)%Q).
  { by apply Qeq_bool_neq. }
  rewrite Q2R_minus, Q2R_div by done.
  rewrite (Q2R_ssRes points Hn), HssTot.
  rewrite Q2R_div by done. rewrite HsumXY, HsumX2.
  replace (Q2R 1) with 1 by (unfold Q2R; simpl; field).
  field. repeat split; lra.
Qed.
End RSquaredFacts.

Section RSquaredTheorems.

#[local] Open Scope R_scope.





(** The coefficient of determination lies between 0 and 1. *)
Theorem calculateRSquared_bounded (points : list DataPoint.t) (q : Q) :
  calculateRSquared points = Some q → (0 <= q)%Q ∧ (q <= 1)%Q.
Proof.
  intros Hq.
  assert (Hlen : (2 ≤ length points)%nat).
  { unfold calculateRSquared in Hq.
    destruct (length points <? 2)%nat eqn:Hlen; [done |].
    by apply Nat.ltb_ge in Hlen. }
  pose proof (varX_nonneg points) as HvX. pose proof (varY_nonneg points) as HvY.
  destruct (calculateRSquared_moments points Hlen) as [Hnone Hsome].
  destruct (Req_dec (varX points) 0) as [Hx | Hx];
    [rewrite Hnone in Hq by (by left); done |].
  destruct (Req_dec (varY points) 0) as [Hy | Hy];
    [rewrite Hnone in Hq by (by right); done |].
  destruct (Hsome Hx Hy) as (q' & Hq' & Hval).
  rewrite Hq in Hq'. injection Hq' as <-.
  pose proof (cov_square_le Rx Ry points) as Hcs.
  fold (covXY points) (varX points) (varY points) in Hcs.
  assert (Hprod : 0 < varX points * varY points) by nra.
  assert (H01 : 0 <= Q2R q <= 1).
  { rewrite Hval. split.
    - apply Rmult_le_pos; [nra | left; by apply Rinv_0_lt_compat].
    - apply (Rmult_le_reg_r (varX points * varY points)); [done |].
      unfold Rdiv. rewrite Rmult_assoc, Rinv_l by lra. lra. }
  split; apply Rle_Qle.
  - rewrite RMicromega.Q2R_0. lra.
  - replace (Q2R 1) with 1 by (unfold Q2R; simpl; field). lra.
Qed.

Lemma calculateRSquared_bounded_witness :
  ∃ q, calculateRSquared
         [DataPoint.mk 1 2 None; DataPoint.mk 2 4 None; DataPoint.mk 3 7 None;
          DataPoint.mk 4 8 None; DataPoint.mk 5 10 None] = Some q
       ∧ (0 <= q)%Q ∧ (q <= 1)%Q.
Proof.
  eexists. split; [by vm_compute |].
  apply (calculateRSquared_bounded
           [DataPoint.mk 1 2 None; DataPoint.mk 2 4 None; DataPoint.mk 3 7 None;
            DataPoint.mk 4 8 None; DataPoint.mk 5 10 None]).
  by vm_compute.
Defined.

(** Points on a line that is not level, with at least two different x,
    have coefficient of determination 1. *)
Theorem calculateRSquared_of_line (a b : Q) (points : list DataPoint.t)
  (p q : DataPoint.t) :
  Forall (λ p, DataPoint.y p == a * DataPoint.x p + b)%Q points →
  p ∈ points → q ∈ points → ¬ (DataPoint.x p == DataPoint.x q)%Q →
  ¬ (a == 0)%Q →
  ∃ v, calculateRSquared points = Some v ∧ (v == 1)%Q.
Proof.
  intros Hline Hp Hq Hpq Ha.
  destruct (line_moments a b points p q Hline Hp Hq Hpq)
    as (HvY & Hcov & HvX & Hlen).
  apply Nat.ltb_ge in Hlen.
  assert (HaR : Q2R a ≠ 0).
  { intros H0. apply Ha. apply eqR_Qeq. by rewrite RMicromega.Q2R_0. }
  destruct (calculateRSquared_moments points Hlen) as [_ Hsome].
  destruct Hsome as (v & Hv & Hval).
  - lra.
  - rewrite HvY. apply Rmult_integral_contrapositive_currified; [| lra].
    by apply Rmult_integral_contrapositive_currified.
  - exists v. split; [done |]. apply eqR_Qeq.
    rewrite Hval, HvY, Hcov.
    replace (Q2R 1) with 1 by (unfold Q2R; simpl; field).
    field. split; lra.
Qed.

Lemma calculateRSquared_of_line_witness :
  ∃ v, calculateRSquared
         [DataPoint.mk 1 2 None; DataPoint.mk 2 4 None; DataPoint.mk 3 6 None;
          DataPoint.mk 4 8 None; DataPoint.mk 5 10 None] = Some v
       ∧ (v == 1)%Q.
Proof.
  apply (calculateRSquared_of_line 2 0 _ (DataPoint.mk 1 2 None)
           (DataPoint.mk 2 4 None)).
  - repeat constructor; by vm_compute.
  - by left.
  - right. by left.
  - by vm_compute.
  - by vm_compute.
Defined.

(** X18.  A correlation of greater magnitude never gets a weaker label; the
    label does not depend on the sign. *)
Theorem getCorrelationStrength_monotone (r1 r2 : R) :
  Rabs r1 <= Rabs r2 →
  (strength_rank (getCorrelationStrength (Some r1))
   ≤ strength_rank (getCorrelationStrength (Some r2)))%nat
  ∧ getCorrelationStrength (Some (- r1)) = getCorrelationStrength (Some r1).
Proof.
  intros Hle. split.
  - unfold getCorrelationStrength.
    destruct (Rlt_dec (Rabs r1) 0.3), (Rlt_dec (Rabs r1) 0.7),
             (Rlt_dec (Rabs r2) 0.3), (Rlt_dec (Rabs r2) 0.7);
      simpl; (lia || lra).
  - unfold getCorrelationStrength. by rewrite Rabs_Ropp.
Qed.

Lemma getCorrelationStrength_monotone_witness :
  (strength_rank (getCorrelationStrength (Some 0.5%R))
   ≤ strength_rank (getCorrelationStrength (Some (-1)%R)))%nat
  ∧ getCorrelationStrength (Some (Ropp 0.5)) = getCorrelationStrength (Some 0.5).
Proof.
  apply (getCorrelationStrength_monotone 0.5 (-1)).
  rewrite (Rabs_right 0.5) by lra. rewrite (Rabs_left (-1)) by lra. lra.
Defined.
End RSquaredTheorems.

Section PointSets.

Lemma foldl_Forall_inv {A B} (P : B → Prop) (step : list B → A → list B)
  (l : list A) (acc : list B) :
  Forall P acc →
  (∀ acc a, a ∈ l → Forall P acc → Forall P (step acc a)) →
  Forall P (foldl step acc l).
Proof.
  revert acc. induction l as [| a l IH]; intros acc Hacc Hstep; simpl; [done |].
  apply IH.
  - apply Hstep; [by left | done].
  - intros acc' a' Ha'. apply Hstep. by right.
Qed.

Lemma Forall_snoc {B} (P : B → Prop) (l : list B) (b : B) :
  Forall P l → P b → Forall P (l ++ [b]).
Proof. intros Hl Hb. apply Forall_app. split; [done | by constructor]. Qed.

Lemma JS_lt_false a b : JS.lt a b = false ↔ b <= a.
Proof.
  unfold JS.lt. rewrite negb_false_iff. apply Qle_bool_iff.
Qed.

Lemma gate_passed (v lo hi : Q) :
  JS.lt v lo || JS.gt v hi = false → lo <= v ∧ v <= hi.
Proof.
  intros H. apply orb_false_iff in H as [H1 H2].
  apply JS_lt_false in H1. unfold JS.gt in H2. apply JS_lt_false in H2. done.
Qed.

(** X19.  Every time point lies on the 0-100 scale, has a duration from half
    a second to two minutes, and starts unflagged. *)
Theorem timePoints_invariant (w : DifficultyWeights)
  (exercises : list ExerciseRecord.t) (modeFilter : ModeFilter) :
  Forall (λ p, (0 <= DataPoint.x p ∧ DataPoint.x p <= 100)
               ∧ (0.5 <= DataPoint.y p ∧ DataPoint.y p <= 120)
               ∧ DataPoint.isOutlier p = Some false)
    (timePoints w exercises modeFilter
       (calculateDifficultyRange exercises w modeFilter)).
Proof.
  unfold timePoints. apply foldl_Forall_inv; [constructor |].
  intros acc ex Hex Hacc.
  destruct (ExerciseRecord.solvedAt ex) as [solvedAt |]; [| done].
  destruct (_ || _); [done |].
  destruct (mode_mismatch _ _) eqn:Hmode; [done |].
  destruct (JS.lt _ 0.5 || JS.gt _ 120) eqn:Hgate; [done |].
  apply Forall_snoc; [done |]. simpl.
  split; [apply difficulty_on_scale; [done | done] |].
  split; [by apply gate_passed | done].
Qed.

(** X20.  Every correctness point lies on the 0-100 scale, has outcome 0 or 1,
    and starts unflagged. *)
Theorem correctnessPoints_invariant (w : DifficultyWeights)
  (exercises : list ExerciseRecord.t) (modeFilter : ModeFilter) :
  Forall (λ p, (0 <= DataPoint.x p ∧ DataPoint.x p <= 100)
               ∧ (DataPoint.y p = 0 ∨ DataPoint.y p = 1)
               ∧ DataPoint.isOutlier p = Some false)
    (correctnessPoints w exercises modeFilter
       (calculateDifficultyRange exercises w modeFilter)).
Proof.
  unfold correctnessPoints. apply foldl_Forall_inv; [constructor |].
  intros acc ex Hex Hacc.
  destruct (ExerciseRecord.keystrokeCount ex) as [keystrokeCount |]; [| done].
  destruct (no_id _); [done |].
  destruct (mode_mismatch _ _) eqn:Hmode; [done |].
  destruct (JS.lt _ 100 || JS.gt _ 500) eqn:Hgate; [done |].
  apply Forall_snoc; [done |]. simpl.
  split; [apply difficulty_on_scale; done |].
  split; [| done]. destruct (Qeq_bool _ 100); [by right | by left].
Qed.

Lemma ratingMap_valid (evaluations : list EvaluationRecord.t)
  (modeFilter : ModeFilter) :
  valid_ratings (ratingMap evaluations modeFilter).
Proof.
  unfold ratingMap.
  assert (H0 : valid_ratings ∅) by (intros ? ? H; by rewrite lookup_empty in H).
  revert H0. generalize (∅ : gmap N (list Q)).
  induction evaluations as [| ev evs IH]; intros m Hm; simpl; [done |].
  apply IH. cbv zeta.
  destruct (mode_mismatch _ _); [done |].
  destruct (JS.lt _ 1 || JS.gt _ 9) eqn:Hgate; [done |].
  apply gate_passed in Hgate.
  generalize (EvaluationRecord.exerciseIds ev). intros ids.
  revert m Hm. induction ids as [| i ids IHi]; intros m Hm; simpl; [done |].
  apply IHi. intros id' rs. rewrite lookup_insert. case_decide.
  - intros [= <-]. split; [by destruct (default [] (m !! i)) |].
    apply Forall_snoc; [| done].
    destruct (m !! i) as [rs |] eqn:Hi; simpl; [| constructor].
    by apply (Hm i rs).
  - apply Hm.
Qed.

Lemma num_S (n : nat) : JS.num (S n) == JS.num n + 1.
Proof.
  unfold JS.num. rewrite Nat2Z.inj_succ, <- Z.add_1_r, inject_Z_plus. reflexivity.
Qed.

Lemma sum_between (lo hi : Q) (rs : list Q) (acc : Q) :
  Forall (λ r, lo <= r ∧ r <= hi) rs →
  acc + lo * JS.num (length rs) <= foldl (λ sum r, sum + r) acc rs
  ∧ foldl (λ sum r, sum + r) acc rs <= acc + hi * JS.num (length rs).
Proof.
  intros Hall. revert acc. induction Hall as [| r rs [Hlo Hhi] Hall IH]; intros acc.
  - simpl. change (JS.num 0) with 0. split; lra.
  - change (length (r :: rs)) with (S (length rs)). simpl foldl.
    destruct (IH (acc + r)) as [IH1 IH2]. rewrite num_S. split; lra.
Qed.

Lemma average_between (lo hi : Q) (rs : list Q) :
  rs ≠ [] → Forall (λ r, lo <= r ∧ r <= hi) rs →
  lo <= foldl (λ sum r, sum + r) 0 rs / JS.num (length rs)
  ∧ foldl (λ sum r, sum + r) 0 rs / JS.num (length rs) <= hi.
Proof.
  intros Hne Hall. destruct (sum_between lo hi rs 0 Hall) as [H1 H2].
  assert (Hn : 0 < JS.num (length rs)).
  { destruct rs; [done |]. unfold JS.num, Qlt. simpl. lia. }
  split.
  - apply Qle_shift_div_l; [done | lra].
  - apply Qle_shift_div_r; [done | lra].
Qed.

(** X21.  Every rating point has an average rating from 1 to 9 and starts
    unflagged; without a mode filter it lies on the 0-100 scale. *)
Theorem ratingPoints_invariant (w : DifficultyWeights)
  (exercises : list ExerciseRecord.t) (evaluations : list EvaluationRecord.t)
  (modeFilter : ModeFilter) (range : DifficultyRange.t) :
  Forall (λ p, (1 <= DataPoint.y p ∧ DataPoint.y p <= 9)
               ∧ DataPoint.isOutlier p = Some false)
    (ratingPoints w exercises (ratingMap evaluations modeFilter) range)
  ∧ Forall (λ p, 0 <= DataPoint.x p ∧ DataPoint.x p <= 100)
      (ratingPoints w exercises (ratingMap evaluations all)
         (calculateDifficultyRange exercises w all)).
Proof.
  split.
  - pose proof (ratingMap_valid evaluations modeFilter) as Hvalid.
    unfold ratingPoints. apply foldl_Forall_inv; [constructor |].
    intros acc ex Hex Hacc.
    destruct (ExerciseRecord.id ex) as [id |]; [| done].
    destruct (id =? 0)%N; [done |].
    destruct (ratingMap evaluations modeFilter !! id) as [[| r rs] |] eqn:Hid;
      [done | | done].
    destruct (Hvalid id (r :: rs) Hid) as [Hne Hall].
    apply Forall_snoc; [done |]. simpl. split; [| done].
    by apply (average_between 1 9 (r :: rs)).
  - unfold ratingPoints. apply foldl_Forall_inv; [constructor |].
    intros acc ex Hex Hacc.
    destruct (ExerciseRecord.id ex) as [id |]; [| done].
    destruct (id =? 0)%N; [done |].
    destruct (ratingMap evaluations all !! id) as [[| r rs] |]; [done | | done].
    apply Forall_snoc; [done |]. simpl.
    by apply difficulty_on_scale.
Qed.
End PointSets.

Section OptimizerFacts.




Lemma flagged_false_id (points : list DataPoint.t) :
  Forall (λ p, DataPoint.isOutlier p = Some false) points →
  flagged (λ _, false) points = points.
Proof.
  intros Hall. unfold flagged. apply list_eq. intros i.
  rewrite list_lookup_imap.
  destruct (points !! i) as [p |] eqn:Hi; simpl; [| done].
  rewrite Forall_forall in Hall.
  pose proof (Hall p (list_elem_of_lookup_2 _ _ _ Hi)) as Hp.
  destruct p as [x y o]. simpl in Hp. by subst.
Qed.

Lemma without_outliers_id (points : list DataPoint.t) :
  Forall (λ p, DataPoint.isOutlier p = Some false) points →
  without_outliers points = points.
Proof.
  intros Hall. unfold without_outliers.
  induction Hall as [| p ps Hp Hall IH]; simpl; [done |].
  unfold DataPoint.not_outlier at 1. rewrite Hp. simpl. by rewrite IH.
Qed.

Lemma undetected (points : list DataPoint.t) (s : Q) :
  Forall (λ p, DataPoint.isOutlier p = Some false) points →
  without_outliers (applyOutlierDetection_new points s false) = points.
Proof.
  intros Hall. rewrite applyOutlierDetection_new_values.
  unfold applyOutlierDetection_values. simpl.
  rewrite flagged_false_id by done. by apply without_outliers_id.
Qed.

Lemma timePoints_unflagged w exercises modeFilter range :
  Forall (λ p, DataPoint.isOutlier p = Some false)
    (timePoints w exercises modeFilter range).
Proof.
  unfold timePoints. apply foldl_Forall_inv; [constructor |].
  intros acc ex _ Hacc.
  destruct (ExerciseRecord.solvedAt ex); [| done].
  repeat (case_match; [done |]). by apply Forall_snoc.
Qed.

Lemma ratingPoints_unflagged w exercises m range :
  Forall (λ p, DataPoint.isOutlier p = Some false)
    (ratingPoints w exercises m range).
Proof.
  unfold ratingPoints. apply foldl_Forall_inv; [constructor |].
  intros acc ex _ Hacc.
  destruct (ExerciseRecord.id ex) as [id |]; [| done].
  destruct (id =? 0)%N; [done |].
  destruct (m !! id) as [[| r rs] |]; [done | | done].
  by apply Forall_snoc.
Qed.

Lemma correctnessPoints_unflagged w exercises modeFilter range :
  Forall (λ p, DataPoint.isOutlier p = Some false)
    (correctnessPoints w exercises modeFilter range).
Proof.
  unfold correctnessPoints. apply foldl_Forall_inv; [constructor |].
  intros acc ex _ Hacc.
  destruct (ExerciseRecord.keystrokeCount ex); [| done].
  repeat (case_match; [done |]). by apply Forall_snoc.
Qed.

(** X23.  With outlier detection switched off no point is dropped: the three
    correlations are those of the point sets as built. *)
Theorem correlations_without_detection (w : DifficultyWeights)
  (exercises : list ExerciseRecord.t) (evaluations : list EvaluationRecord.t)
  (modeFilter : ModeFilter) (outlierSensitivity : Q) :
  let range := calculateDifficultyRange exercises w modeFilter in
  calculateCorrelationsForWeights w exercises evaluations modeFilter false
    outlierSensitivity
  = {| cl := calculateCorrelation
               (ratingPoints w exercises (ratingMap evaluations modeFilter) range);
       time := calculateCorrelation (timePoints w exercises modeFilter range);
       correctness :=
         calculateCorrelation (correctnessPoints w exercises modeFilter range) |}.
Proof.
  intros range. unfold calculateCorrelationsForWeights,
    correctnessPointsWithOutliers. fold range.
  rewrite (undetected (timePoints _ _ _ _)) by apply timePoints_unflagged.
  rewrite (undetected (ratingPoints _ _ _ _)) by apply ratingPoints_unflagged.
  by rewrite (undetected (correctnessPoints _ _ _ _))
    by apply correctnessPoints_unflagged.
Qed.

Lemma foldl_grow_length {A B} (step : list B → A → list B) (l : list A)
  (acc : list B) :
  (∀ acc a, (length (step acc a) ≤ S (length acc))%nat) →
  (length (foldl step acc l) ≤ length acc + length l)%nat.
Proof.
  intros Hstep. revert acc. induction l as [| a l IH]; intros acc; simpl; [lia |].
  etransitivity; [apply IH |]. pose proof (Hstep acc a). lia.
Qed.

Lemma timePoints_length w exercises modeFilter range :
  (length (timePoints w exercises modeFilter range) ≤ length exercises)%nat.
Proof.
  unfold timePoints.
  etransitivity; [apply foldl_grow_length | simpl; lia].
  intros acc ex. destruct (ExerciseRecord.solvedAt ex); [| lia].
  repeat (case_match; [lia |]). rewrite length_app. simpl. lia.
Qed.

Lemma ratingPoints_length w exercises m range :
  (length (ratingPoints w exercises m range) ≤ length exercises)%nat.
Proof.
  unfold ratingPoints.
  etransitivity; [apply foldl_grow_length | simpl; lia].
  intros acc ex. destruct (ExerciseRecord.id ex) as [id |]; [| lia].
  destruct (id =? 0)%N; [lia |].
  destruct (m !! id) as [[| r rs] |]; [lia | | lia].
  rewrite length_app. simpl. lia.
Qed.

Lemma correctnessPoints_length w exercises modeFilter range :
  (length (correctnessPoints w exercises modeFilter range) ≤ length exercises)%nat.
Proof.
  unfold correctnessPoints.
  etransitivity; [apply foldl_grow_length | simpl; lia].
  intros acc ex. destruct (ExerciseRecord.keystrokeCount ex); [| lia].
  repeat (case_match; [lia |]). rewrite length_app. simpl. lia.
Qed.

Lemma detection_keeps_length points s enabled :
  length (applyOutlierDetection_new points s enabled) = length points.
Proof.
  rewrite applyOutlierDetection_new_values. unfold applyOutlierDetection_values.
  destruct (_ || _); apply length_imap.
Qed.

Lemma correlation_of_few points s enabled :
  (length points < 2)%nat →
  calculateCorrelation (without_outliers (applyOutlierDetection_new points s enabled))
  = None.
Proof.
  intros Hlen. unfold calculateCorrelation.
  assert (Hle : (length (without_outliers (applyOutlierDetection_new points s enabled))
                 ≤ length points)%nat).
  { unfold without_outliers. rewrite <- (detection_keeps_length points s enabled).
    apply List.filter_length_le. }
  assert (Hlt : (length (without_outliers (applyOutlierDetection_new points s enabled))
                 <? 2)%nat = true) by (apply Nat.ltb_lt; lia).
  by rewrite Hlt.
Qed.

(** X24.  With fewer than two exercises there is nothing to correlate: the
    three correlations are [null] and the composite score is 0. *)
Theorem correlations_of_few_exercises (w : DifficultyWeights)
  (exercises : list ExerciseRecord.t) (evaluations : list EvaluationRecord.t)
  (modeFilter : ModeFilter) (detectOutliers : bool) (outlierSensitivity : Q) :
  (length exercises < 2)%nat →
  calculateCorrelationsForWeights w exercises evaluations modeFilter
    detectOutliers outlierSensitivity = no_correlations
  ∧ calculateCompositeScore
      (calculateCorrelationsForWeights w exercises evaluations modeFilter
         detectOutliers outlierSensitivity) = 0%R.
Proof.
  intros Hlen.
  assert (Hnone : calculateCorrelationsForWeights w exercises evaluations
                    modeFilter detectOutliers outlierSensitivity
                  = no_correlations).
  { unfold calculateCorrelationsForWeights, correctnessPointsWithOutliers.
    rewrite !correlation_of_few; [done | ..];
      (eapply Nat.le_lt_trans;
       [first [apply timePoints_length | apply ratingPoints_length
              | apply correctnessPoints_length]
       | done]). }
  by rewrite Hnone.
Qed.

Lemma correlations_of_few_exercises_witness :
  calculateCorrelationsForWeights DEFAULT_DIFFICULTY_WEIGHTS [solved 1 345 78 3]
    [] all true 1.5 = no_correlations
  ∧ calculateCompositeScore
      (calculateCorrelationsForWeights DEFAULT_DIFFICULTY_WEIGHTS
         [solved 1 345 78 3] [] all true 1.5) = 0%R.
Proof. apply correlations_of_few_exercises. simpl. lia. Defined.
End OptimizerFacts.

Section SearchFacts.

Context (exercises : list ExerciseRecord.t)
  (evaluations : list EvaluationRecord.t) (modeFilter : ModeFilter)
  (detectOutliers : bool) (outlierSensitivity : Q).

Let step (onProgress : bool) (total : nat) :=
  search_step exercises evaluations modeFilter detectOutliers
    outlierSensitivity onProgress total.
Let score := score_of exercises evaluations modeFilter detectOutliers
               outlierSensitivity.
Let result := result_of exercises evaluations modeFilter detectOutliers
                outlierSensitivity.
Let after := best_after exercises evaluations modeFilter detectOutliers
               outlierSensitivity.






End SearchFacts.

Section GridSearchFacts.





End GridSearchFacts.

Section GridSearchTheorems.

Context (exercises : list ExerciseRecord.t)
  (evaluations : list EvaluationRecord.t) (modeFilter : ModeFilter)
  (detectOutliers : bool) (outlierSensitivity : Q).

Let score := score_of exercises evaluations modeFilter detectOutliers
               outlierSensitivity.


End GridSearchTheorems.

Section BucketFacts.

Lemma initial_buckets_well_formed : well_formed initial_buckets.
Proof.
  split.
  - intros i Hi.
    do 20 (destruct i as [| i]; [by exists (BucketCount.mk 0 0) |]). lia.
  - intros k Hk. unfold initial_buckets. cbn [foldl seq].
    rewrite !lookup_insert_ne by lia. apply lookup_empty.
Qed.

Lemma sum_list_cons (a : nat) (l : list nat) :
  sum_list (a :: l) = (a + sum_list l)%nat.
Proof. reflexivity. Qed.

Lemma sum_bump (f g : nat → nat) (j d : nat) (l : list nat) :
  NoDup l → j ∈ l → g j = (f j + d)%nat → (∀ i, i ≠ j → g i = f i) →
  sum_list (g <$> l) = (sum_list (f <$> l) + d)%nat.
Proof.
  intros Hnd Hj Hgj Hg. induction l as [| a l IH]; [by apply elem_of_nil in Hj |].
  apply NoDup_cons in Hnd as [Ha Hnd]. rewrite !fmap_cons, !sum_list_cons.
  destruct (decide (a = j)) as [-> | Hne].
  - rewrite Hgj.
    assert (g <$> l = f <$> l) as ->; [| lia].
    apply list_fmap_ext. intros idx i Hi. apply Hg. intros ->.
    apply Ha. by eapply list_elem_of_lookup_2.
  - rewrite (Hg a Hne), IH; [lia | done |].
    apply elem_of_cons in Hj as [-> | Hj]; done.
Qed.

Lemma counted_insert (f : BucketCount.t → nat) (m : gmap Z BucketCount.t)
  (j : nat) (b b' : BucketCount.t) (d : nat) :
  (j < 20)%nat → m !! Z.of_nat j = Some b → f b' = (f b + d)%nat →
  counted f (<[Z.of_nat j := b']> m) = (counted f m + d)%nat.
Proof.
  intros Hj Hb Hf. unfold counted.
  apply (sum_bump _ _ j); [apply NoDup_seq | apply elem_of_seq; lia | |].
  - by rewrite lookup_insert_eq, Hb.
  - intros i Hi. rewrite lookup_insert_ne; [done | lia].
Qed.

Lemma bucketIndex_range (v : Q) :
  0 <= v → ∃ j, (j < 20)%nat ∧ Z.min (JS.Math_floor (v / 5)) 19 = Z.of_nat j.
Proof.
  intros Hv. unfold JS.Math_floor.
  assert (0 <= Qfloor (v / 5))%Z as Hfloor.
  { change 0%Z with (Qfloor 0). apply Qfloor_resp_le.
    apply Qle_shift_div_l; [reflexivity | by rewrite Qmult_0_l]. }
  exists (Z.to_nat (Z.min (Qfloor (v / 5)) 19)). lia.
Qed.

Lemma bucketIndex_negative (v : Q) :
  v < 0 → (Z.min (JS.Math_floor (v / 5)) 19 < 0)%Z.
Proof.
  intros Hv. unfold JS.Math_floor.
  assert (Qfloor (v / 5) < 0)%Z; [| lia].
  apply Z.lt_nge. intros H0.
  pose proof (Qfloor_le (v / 5)) as Hle.
  assert (0 <= v / 5) as Hnn.
  { eapply Qle_trans; [| exact Hle]. change 0 with (inject_Z 0).
    by rewrite <- Zle_Qle. }
  assert (v / 5 < 0); [| lra].
  apply Qlt_shift_div_r; [reflexivity | by rewrite Qmult_0_l].
Qed.

Lemma fill_bucket_well_formed (m : gmap Z BucketCount.t) (p : DataPoint.t) :
  well_formed m →
  (DataPoint.not_outlier p = true → 0 <= DataPoint.x p) →
  ∃ m', fill_bucket m p = Some m' ∧ well_formed m'
        ∧ counted BucketCount.total m'
          = (counted BucketCount.total m + one_if (DataPoint.not_outlier p))%nat
        ∧ counted BucketCount.correct m'
          = (counted BucketCount.correct m
             + one_if (DataPoint.not_outlier p
                       && Qeq_bool (DataPoint.y p) 1))%nat.
Proof.
  intros [Hin Hout] Hx. unfold fill_bucket.
  destruct (DataPoint.not_outlier p) eqn:Hp.
  2: { exists m. cbn [one_if andb]. rewrite !Nat.add_0_r. done. }
  destruct (bucketIndex_range (DataPoint.x p) (Hx eq_refl)) as (j & Hj & ->).
  destruct (Hin j Hj) as (b & Hb & Hle). rewrite Hb. cbn [mbind option_bind].
  eexists. split; [done |]. split; [split |].
  - intros i Hi. destruct (decide (i = j)) as [-> | Hne].
    + rewrite lookup_insert_eq. eexists. split; [done |]. cbn.
      destruct (Qeq_bool _ _); lia.
    + rewrite lookup_insert_ne by lia. by apply Hin.
  - intros k Hk. rewrite lookup_insert_ne by lia. by apply Hout.
  - split; (eapply counted_insert; [done | done |]); cbn; [lia |].
    destruct (Qeq_bool _ _); cbn; lia.
Qed.

Lemma fill_fold (points : list DataPoint.t) (m : gmap Z BucketCount.t) :
  well_formed m →
  Forall (λ p, DataPoint.not_outlier p = true → 0 <= DataPoint.x p) points →
  ∃ m', foldl (λ buckets point, buckets ≫= λ b, fill_bucket b point)
          (Some m) points = Some m'
        ∧ well_formed m'
        ∧ counted BucketCount.total m'
          = (counted BucketCount.total m
             + length (without_outliers points))%nat
        ∧ counted BucketCount.correct m'
          = (counted BucketCount.correct m
             + length (correct_points (without_outliers points)))%nat.
Proof.
  intros Hm Hpoints. revert m Hm.
  induction Hpoints as [| p points Hp _ IH]; intros m Hm.
  - exists m. cbn. rewrite !Nat.add_0_r. done.
  - destruct (fill_bucket_well_formed m p Hm Hp) as (m1 & Hfill & Hm1 & Ht & Hc).
    cbn [foldl mbind option_bind]. rewrite Hfill.
    destruct (IH m1 Hm1) as (m' & Hfold & Hm' & Ht' & Hc').
    exists m'. split; [done |]. split; [done |].
    rewrite Ht', Hc', Ht, Hc. unfold without_outliers, correct_points.
    cbn [List.filter]. destruct (DataPoint.not_outlier p); cbn [one_if andb].
    + cbn [List.filter]. destruct (Qeq_bool _ _); cbn [length one_if]; lia.
    + lia.
Qed.

Lemma rate_between (c t : nat) :
  (0 < t)%nat → (c ≤ t)%nat →
  0 <= JS.num c / JS.num t * 100 ∧ JS.num c / JS.num t * 100 <= 100.
Proof.
  intros Ht Hc.
  assert (0 < JS.num t) as Htq.
  { unfold JS.num. change 0 with (inject_Z 0). rewrite <- Zlt_Qlt. lia. }
  assert (0 <= JS.num c) as Hcq.
  { unfold JS.num. change 0 with (inject_Z 0). rewrite <- Zle_Qle. lia. }
  assert (JS.num c <= JS.num t) as Hct.
  { unfold JS.num. rewrite <- Zle_Qle. lia. }
  assert (0 <= JS.num c / JS.num t) as H0.
  { apply Qle_shift_div_l; [done | by rewrite Qmult_0_l]. }
  assert (JS.num c / JS.num t <= 1) as H1.
  { apply Qle_shift_div_r; [done | by rewrite Qmult_1_l]. }
  split; lra.
Qed.

Lemma rows_fold (m : gmap Z BucketCount.t) (l : list nat)
  (acc : list BucketData.t) :
  well_formed m → Forall (λ i, (i < 20)%nat) l →
  ∃ rows, foldl (push_bucket m) (Some acc) l = Some (acc ++ rows)
          ∧ sum_list (BucketData.totalCount <$> rows)
            = sum_list ((λ i, from_option BucketCount.total 0%nat
                                (m !! Z.of_nat i)) <$> l)
          ∧ sum_list (BucketData.correctCount <$> rows)
            = sum_list ((λ i, from_option BucketCount.correct 0%nat
                                (m !! Z.of_nat i)) <$> l)
          ∧ Forall row_ok rows.
Proof.
  intros [Hin Hout] Hl. revert acc.
  induction Hl as [| i l Hi _ IH]; intros acc.
  - exists []. by rewrite app_nil_r.
  - destruct (Hin i Hi) as (b & Hb & Hle).
    cbn [foldl]. unfold push_bucket at 2. cbn [mbind option_bind].
    rewrite Hb. cbn [mbind option_bind]. rewrite !fmap_cons, Hb.
    rewrite !sum_list_cons. cbn [from_option].
    destruct (0 <? BucketCount.total b)%nat eqn:Hpos.
    + apply Nat.ltb_lt in Hpos.
      destruct (IH (acc ++ [BucketData.mk (bucket_label i)
                     (JS.num (BucketCount.correct b)
                        / JS.num (BucketCount.total b) * 100)
                     (BucketCount.total b) (BucketCount.correct b)]))
        as (rows & Hfold & Ht & Hc & Hrows).
      eexists (_ :: rows). rewrite Hfold, <- app_assoc. split; [done |].
      rewrite !fmap_cons, !sum_list_cons, Ht, Hc.
      split; [done |]. split; [done |]. constructor; [| done].
      unfold row_ok. cbn. split; [done |]. split; [done |].
      split; [reflexivity |]. by apply rate_between.
    + apply Nat.ltb_ge in Hpos.
      destruct (IH acc) as (rows & Hfold & Ht & Hc & Hrows).
      exists rows. rewrite Hfold, Ht, Hc. split; [done |].
      split; [lia |]. split; [lia | done].
Qed.

Lemma counted_initial (f : BucketCount.t → nat) :
  f (BucketCount.mk 0 0) = 0%nat → counted f initial_buckets = 0%nat.
Proof. intros Hf. vm_compute. by rewrite Hf. Qed.

Lemma bucketed_rows (points : list DataPoint.t) :
  Forall (λ p, DataPoint.not_outlier p = true → 0 <= DataPoint.x p) points →
  ∃ rows, bucketed points = Some rows
          ∧ sum_list (BucketData.totalCount <$> rows)
            = length (without_outliers points)
          ∧ sum_list (BucketData.correctCount <$> rows)
            = length (correct_points (without_outliers points))
          ∧ Forall row_ok rows.
Proof.
  intros Hpoints.
  destruct (fill_fold points initial_buckets initial_buckets_well_formed
              Hpoints) as (m & Hfill & Hm & Ht & Hc).
  destruct (rows_fold m (seq 0 20) [] Hm) as (rows & Hrows & Ht' & Hc' & Hok).
  { apply Forall_forall. intros i Hi. apply elem_of_seq in Hi. lia. }
  exists rows. unfold bucketed, fill_buckets. rewrite Hfill.
  cbn [mbind option_bind]. unfold bucket_rows. rewrite Hrows.
  split; [done |].
  rewrite Ht', Hc'. fold (counted BucketCount.total m).
  fold (counted BucketCount.correct m).
  rewrite Ht, Hc, !counted_initial by done. done.
Qed.


Lemma fold_thrown (points : list DataPoint.t) :
  foldl (λ buckets point, buckets ≫= λ b, fill_bucket b point) None points
  = None.
Proof. by induction points. Qed.

Lemma fill_bucket_thrown (m : gmap Z BucketCount.t) (p : DataPoint.t) :
  well_formed m → DataPoint.not_outlier p = true → DataPoint.x p < 0 →
  fill_bucket m p = None.
Proof.
  intros [_ Hout] Hp Hx. unfold fill_bucket. rewrite Hp.
  by rewrite (Hout _ (bucketIndex_negative _ Hx)).
Qed.

Lemma fill_fold_thrown (points : list DataPoint.t) (m : gmap Z BucketCount.t) :
  well_formed m →
  Exists (λ p, DataPoint.not_outlier p = true ∧ DataPoint.x p < 0) points →
  foldl (λ buckets point, buckets ≫= λ b, fill_bucket b point) (Some m) points
  = None.
Proof.
  intros Hm Hex. revert m Hm.
  induction points as [| p points IH]; intros m Hm; [by inversion Hex |].
  cbn [foldl mbind option_bind].
  destruct (fill_bucket m p) as [m1 |] eqn:Hfill; [| apply fold_thrown].
  apply Exists_cons in Hex as [[Hp Hx] | Hex].
  - by rewrite (fill_bucket_thrown m p Hm Hp Hx) in Hfill.
  - apply IH; [done |].
    destruct (DataPoint.not_outlier p) eqn:Hp.
    + destruct (Qlt_le_dec (DataPoint.x p) 0) as [Hx | Hx].
      * by rewrite (fill_bucket_thrown m p Hm Hp Hx) in Hfill.
      * destruct (fill_bucket_well_formed m p Hm (λ _, Hx))
          as (m' & Hfill' & Hm' & _). congruence.
    + unfold fill_bucket in Hfill. rewrite Hp in Hfill. congruence.
Qed.

Lemma points_dichotomy (points : list DataPoint.t) :
  Forall (λ p, DataPoint.not_outlier p = true → 0 <= DataPoint.x p) points
  ∨ Exists (λ p, DataPoint.not_outlier p = true ∧ DataPoint.x p < 0) points.
Proof.
  induction points as [| p points [IH | IH]]; [by left | | right; by right].
  destruct (DataPoint.not_outlier p) eqn:Hp.
  - destruct (Qlt_le_dec (DataPoint.x p) 0) as [Hx | Hx].
    + right. left. by rewrite Hp.
    + left. constructor; [by rewrite Hp | done].
  - left. constructor; [by rewrite Hp | done].
Qed.

(** X27.  The chart throws exactly when a point that is not an outlier has a
    negative difficulty: its bucket index is below 0, where the map has
    no bucket. *)
Theorem bucketed_throws_iff (points : list DataPoint.t) :
  bucketed points = None
  ↔ Exists (λ p, DataPoint.not_outlier p = true ∧ DataPoint.x p < 0) points.
Proof.
  split.
  - intros Hnone. destruct (points_dichotomy points) as [Hall | Hex]; [| done].
    destruct (bucketed_rows points Hall) as (rows & Hrows & _). congruence.
  - intros Hex. unfold bucketed, fill_buckets.
    by rewrite (fill_fold_thrown points _ initial_buckets_well_formed Hex).
Qed.

Lemma correctnessPoints_nonneg (w : DifficultyWeights)
  (exercises : list ExerciseRecord.t) (modeFilter : ModeFilter) :
  Forall (λ p, 0 <= DataPoint.x p)
    (correctnessPoints w exercises modeFilter
       (calculateDifficultyRange exercises w modeFilter)).
Proof.
  unfold correctnessPoints. apply foldl_Forall_inv; [constructor |].
  intros acc ex Hex Hacc.
  destruct (ExerciseRecord.keystrokeCount ex) as [keystrokeCount |]; [| done].
  destruct (no_id _); [done |].
  destruct (mode_mismatch _ _) eqn:Hmode; [done |].
  destruct (JS.lt _ 100 || JS.gt _ 500); [done |].
  apply Forall_snoc; [done |]. simpl. by apply difficulty_on_scale.
Qed.

Lemma difficultyVsCorrectness_nonneg exercises modeFilter w s :
  Forall (λ p, 0 <= DataPoint.x p)
    (difficultyVsCorrectness exercises modeFilter w s).
Proof.
  unfold difficultyVsCorrectness.
  pose proof (correctnessPoints_nonneg w exercises modeFilter) as Hpoints.
  destruct (4 <=? _)%nat; [| done].
  apply Forall_forall. intros p Hp.
  apply elem_of_lookup_imap in Hp as (i & q & -> & Hq).
  rewrite Forall_forall in Hpoints. apply (Hpoints q).
  by eapply list_elem_of_lookup_2.
Qed.

(** X28.  On the points of the view the chart never throws, and its rows
    account for every point that is not an outlier: the row totals add up
    to the number of these points, the correct counts to the number of
    them answered correctly, and each row has a success rate from 0 to
    100 over at least one point. *)
Theorem difficultyBuckets_conserves (exercises : list ExerciseRecord.t)
  (modeFilter : ModeFilter) (w : DifficultyWeights) (s : Q) :
  let points := difficultyVsCorrectness exercises modeFilter w s in
  ∃ rows, difficultyBuckets exercises modeFilter w s = Some rows
          ∧ sum_list (BucketData.totalCount <$> rows)
            = length (without_outliers points)
          ∧ sum_list (BucketData.correctCount <$> rows)
            = length (correct_points (without_outliers points))
          ∧ Forall row_ok rows.
Proof.
  intros points. apply bucketed_rows.
  eapply Forall_impl; [apply difficultyVsCorrectness_nonneg |].
  intros p Hp _. exact Hp.
Qed.

End BucketFacts.

Section ProgressiveFacts.

(** The loop after [level] turns. *)
Lemma progressive_fold (maxDigits level : nat) :
  foldl (progressive_step maxDigits) (1%nat, 1%nat) (seq 0 level)
  = ((1 `max` (maxDigits `min` (1 + (level + 1) / 2)))%nat,
     (1 `max` (maxDigits `min` (1 + level / 2)))%nat).
Proof.
  induction level as [| n IH].
  { cbn [seq foldl]. change ((0 + 1) / 2)%nat with 0%nat.
    change (0 / 2)%nat with 0%nat. f_equal; lia. }
  rewrite seq_S, foldl_app, IH. cbn [foldl plus]. unfold progressive_step.
  pose proof (Nat.div_mod_eq n 2) as Hn.
  pose proof (Nat.mod_upper_bound n 2) as Hn'.
  pose proof (Nat.div_mod_eq (n + 1) 2) as Hn1.
  pose proof (Nat.mod_upper_bound (n + 1) 2) as Hn1'.
  pose proof (Nat.div_mod_eq (S n) 2) as HSn.
  pose proof (Nat.mod_upper_bound (S n) 2) as HSn'.
  pose proof (Nat.div_mod_eq (S (n + 1)) 2) as HSn1.
  pose proof (Nat.mod_upper_bound (S (n + 1)) 2) as HSn1'.
  destruct (n mod 2 =? 0)%nat eqn:Hpar;
    [apply Nat.eqb_eq in Hpar | apply Nat.eqb_neq in Hpar];
    repeat (case_match;
            try match goal with
              | H : (_ <? _)%nat = true |- _ => apply Nat.ltb_lt in H
              | H : (_ <? _)%nat = false |- _ => apply Nat.ltb_ge in H
              end);
    f_equal; lia.
Qed.

(** X29.  [getProgressiveDifficulty] in closed form: from one digit each, the
    first operand gains a digit at every odd level and the second at
    every even level, up to [maxDigits]. *)
Theorem getProgressiveDifficulty_closed_form
  (params : ProgressiveDifficultyParams.t) :
  let maxDigits := default 4%nat (ProgressiveDifficultyParams.maxDigits params) in
  let level := (ProgressiveDifficultyParams.solvedCount params / 3)%nat in
  getProgressiveDifficulty params
  = ((1 `max` (maxDigits `min` (1 + (level + 1) / 2)))%nat,
     (1 `max` (maxDigits `min` (1 + level / 2)))%nat).
Proof. intros maxDigits level. apply progressive_fold. Qed.

(** Solving more exercises never lowers the number of digits of either
    operand. *)
Theorem getProgressiveDifficulty_monotone (solved solved' : nat)
  (maxDigits : option nat) :
  (solved ≤ solved')%nat →
  let before :=
    getProgressiveDifficulty (ProgressiveDifficultyParams.mk solved maxDigits) in
  let after :=
    getProgressiveDifficulty (ProgressiveDifficultyParams.mk solved' maxDigits) in
  (before.1 ≤ after.1)%nat ∧ (before.2 ≤ after.2)%nat.
Proof.
  intros Hle before after. subst before after.
  unfold getProgressiveDifficulty. rewrite !progressive_fold. cbn [fst snd].
  cbn [ProgressiveDifficultyParams.solvedCount
       ProgressiveDifficultyParams.maxDigits].
  assert (solved / 3 ≤ solved' / 3)%nat as Hlevel
    by (apply Nat.Div0.div_le_mono; done).
  assert ((solved / 3 + 1) / 2 ≤ (solved' / 3 + 1) / 2)%nat
    by (apply Nat.Div0.div_le_mono; lia).
  assert (solved / 3 / 2 ≤ solved' / 3 / 2)%nat
    by (apply Nat.Div0.div_le_mono; done).
  split; lia.
Qed.

Lemma getProgressiveDifficulty_monotone_witness :
  (7 ≤ 14)%nat
  ∧ ((getProgressiveDifficulty (ProgressiveDifficultyParams.mk 7 None)).1
     ≤ (getProgressiveDifficulty (ProgressiveDifficultyParams.mk 14 None)).1)%nat.
Proof.
  split; [lia |].
  apply (getProgressiveDifficulty_monotone 7 14 None). lia.
Defined.

End ProgressiveFacts.

Section WeightFacts.

Lemma Math_round_integer (k : Z) : JS.Math_round (inject_Z k) = k.
Proof.
  unfold JS.Math_round.
  pose proof (Qfloor_le (inject_Z k + (1 # 2))) as Hle.
  pose proof (Qlt_floor (inject_Z k + (1 # 2))) as Hlt.
  rewrite inject_Z_plus in Hlt. change (inject_Z 1) with 1 in Hlt.
  set (z := Qfloor (inject_Z k + (1 # 2))) in *.
  assert (z <= k)%Z.
  { apply Z.lt_succ_r. rewrite Zlt_Qlt. unfold Z.succ.
    rewrite inject_Z_plus. change (inject_Z 1) with 1. lra. }
  assert (k <= z)%Z; [| lia].
  apply Z.lt_succ_r. rewrite Zlt_Qlt. unfold Z.succ.
  rewrite inject_Z_plus. change (inject_Z 1) with 1. lra.
Qed.

Lemma Math_round_comp (a b : Q) : a == b → JS.Math_round a = JS.Math_round b.
Proof. intros H. unfold JS.Math_round. by rewrite H. Qed.

Lemma roundWeight_fixed (value : Q) :
  roundWeight (roundWeight value) = roundWeight value.
Proof.
  unfold roundWeight at 1. unfold roundWeight at 2. f_equal. f_equal.
  transitivity (JS.Math_round (inject_Z (JS.Math_round (value * 100))));
    [| apply Math_round_integer].
  apply Math_round_comp. unfold roundWeight. field.
Qed.

(** A rounded weight is a whole number of hundredths, at most half a
    hundredth away from the weight. *)
Theorem roundWeight_nearest (value : Q) :
  (∃ k : Z, roundWeight value == inject_Z k / 100)
  ∧ value - (1 # 200) < roundWeight value
  ∧ roundWeight value <= value + (1 # 200).
Proof.
  split; [by eexists |]. unfold roundWeight, JS.Math_round.
  pose proof (Qfloor_le (value * 100 + (1 # 2))) as Hle.
  pose proof (Qlt_floor (value * 100 + (1 # 2))) as Hlt.
  rewrite inject_Z_plus in Hlt. change (inject_Z 1) with 1 in Hlt.
  set (z := inject_Z (Qfloor (value * 100 + (1 # 2)))) in *.
  split.
  - apply Qlt_shift_div_l; [reflexivity | lra].
  - apply Qle_shift_div_r; [reflexivity | lra].
Qed.

(** X30.  Persisted weights persist as themselves: rounding what has been
    rounded changes nothing. *)
Theorem toPersistableWeights_idempotent (weights : DifficultyWeights) :
  toPersistableWeights (toPersistableWeights weights)
  = toPersistableWeights weights.
Proof.
  unfold toPersistableWeights. cbn [digits carryovers zeros].
  by rewrite !roundWeight_fixed.
Qed.

End WeightFacts.
